(** * Blades: AutoGM aggregation and the client gradient/update store

    A shallow embedding of
      - [src/blades/aggregators/autogm.py]  (class [Autogm]),
      - [src/blades/client.py]              (classes [TorchClient], [ClientWithMomentum]),
      - [src/simulators/actor.py]           (classes [TorchClient], [WorkerWithMomentum]).

    Numbers.  The aggregator computes with numpy/torch reals; its control
    flow (sorting, threshold scan, stopping test) is modelled in exact
    rational arithmetic over [Q].  The client store is generic in the
    scalar type of its tensors: it is instantiated with [Q] for the
    algebraic laws and with IEEE-754 values ([spec_float]) where NaN and
    infinities matter.

    Tensors.  A tensor is the list of its entries in the fixed row-major
    order used by [view(-1)]; [reshape_as] keeps that order and only
    requires the number of entries to agree. *)

From Stdlib Require Import QArith Qabs ZArith List Lia Lqa Sorted.
From Stdlib Require Import Floats.SpecFloat.
From stdpp Require Import base option list gmap strings.

Open Scope Q_scope.

(** ** Python exceptions and the error monad *)

Inductive exn : Type :=
| IndexError
| KeyError
| AttributeError
| TypeError
| RuntimeError
| SolverError.

Inductive res (A : Type) : Type :=
| Ok (a : A)
| Raise (e : exn).

Arguments Ok {A} a.
Arguments Raise {A} e.

#[global] Instance res_ret : MRet res := fun _ a => Ok a.
#[global] Instance res_bind : MBind res := fun _ _ f m =>
  match m with
  | Ok a => f a
  | Raise e => Raise e
  end.

Definition returned {A} (r : res A) : option A :=
  match r with
  | Ok a => Some a
  | Raise _ => None
  end.

(** ** Rational helpers mirroring the Python built-ins *)

Definition Qltb (x y : Q) : bool := negb (Qle_bool y x).

(** [sum(xs)]: left-to-right accumulation from [0]. *)
Definition pysum (xs : list Q) : Q := fold_left Qplus xs 0.

(** [max(a, b)]: the second argument wins only when strictly larger. *)
Definition pymax (a b : Q) : Q := if Qltb a b then b else a.

Definition Qnat (n : nat) : Q := inject_Z (Z.of_nat n).

(** [np.linalg.norm(alpha) ** 2]: in exact arithmetic the square of the
    Euclidean norm is the sum of the squares. *)
Definition norm_sq (alpha : list Q) : Q := pysum (map (fun a => a * a) alpha).

(** ** [sorted(enumerate(distance), key=lambda x: x)] *)

Definition enumerate {A} (l : list A) : list (nat * A) :=
  combine (seq 0 (length l)) l.

(** Python's [<] on the pairs [(index, distance)]: lexicographic. *)
Definition tuple_ltb (x y : nat * Q) : bool :=
  if Nat.eqb (fst x) (fst y) then Qltb (snd x) (snd y)
  else Nat.ltb (fst x) (fst y).

(** [sorted] is stable and only uses [<] on the keys: an element is put
    in front of the first element that is not smaller than it. *)
Fixpoint py_insert {A K} (key : A -> K) (ltb : K -> K -> bool)
    (x : A) (l : list A) : list A :=
  match l with
  | [] => [x]
  | y :: l' =>
      if ltb (key y) (key x) then y :: py_insert key ltb x l'
      else x :: y :: l'
  end.

Definition sorted {A K} (key : A -> K) (ltb : K -> K -> bool)
    (l : list A) : list A :=
  fold_right (py_insert key ltb) [] l.

(** Line 41: [idxs = [x for x, _ in sorted(enumerate(distance), key=lambda x: x)]]. *)
Definition idxs (distance : list Q) : list nat :=
  map fst (sorted (fun x => x) tuple_ltb (enumerate distance)).

(** The order the specification asks for: indices by ascending distance,
    ties by index (key [(distance, index)]). *)
Definition dist_index_ltb (x y : Q * nat) : bool :=
  if Qeq_bool (fst x) (fst y) then Nat.ltb (snd x) (snd y)
  else Qltb (fst x) (fst y).

Definition spec_idxs (distance : list Q) : list nat :=
  map fst (sorted (fun x : nat * Q => (snd x, fst x)) dist_index_ltb
             (enumerate distance)).

(** ** Threshold search and weight update (lines 42-49) *)

Definition eta_sentinel : Q := 10000000000000000.

(** [distance[i]]; every index comes from [enumerate(distance)] and is in range. *)
Definition at_index (distance : list Q) (i : nat) : Q := nth i distance 0.

(** [eta = (sum([distance[i] for i in idxs[:p + 1]]) + lamb) / (p + 1)] *)
Definition eta_at (distance : list Q) (order : list nat) (lamb : Q) (p : nat) : Q :=
  (pysum (map (at_index distance) (firstn (p + 1) order)) + lamb) / Qnat (p + 1).

(** The [for p in range(0, len(idxs))] loop with its [break]; [ps] is the
    part of the range still to visit, [eta_optimal] the running value. *)
Fixpoint eta_scan (distance : list Q) (order : list nat) (lamb : Q)
    (ps : list nat) (eta_optimal : Q) : Q :=
  match ps with
  | [] => eta_optimal
  | p :: ps' =>
      let eta := eta_at distance order lamb p in
      if Nat.ltb p (length order)
         && Qltb (eta - at_index distance (nth p order 0%nat)) 0
      then eta_optimal
      else eta_scan distance order lamb ps' eta
  end.

Definition threshold (order : list nat) (distance : list Q) (lamb : Q) : Q :=
  eta_scan distance order lamb (seq 0 (length order)) eta_sentinel.

(** Lines 41-48 as written. *)
Definition eta_optimal (distance : list Q) (lamb : Q) : Q :=
  threshold (idxs distance) distance lamb.

(** The search of the specification: same scan over the distance-sorted order. *)
Definition spec_eta_optimal (distance : list Q) (lamb : Q) : Q :=
  threshold (spec_idxs distance) distance lamb.

(** Line 49: [alpha = np.array([max(eta_optimal - d, 0) / lamb for d in distance])]. *)
Definition weights_of (eta : Q) (distance : list Q) (lamb : Q) : list Q :=
  map (fun d => pymax (eta - d) 0 / lamb) distance.

Definition update_alpha (distance : list Q) (lamb : Q) : list Q :=
  weights_of (eta_optimal distance lamb) distance lamb.

(** The candidate threshold at position [p] when the positions are
    visited in input order: [(d_0 + ... + d_p + lamb) / (p + 1)]. *)
Definition eta_in (distance : list Q) (lamb : Q) (p : nat) : Q :=
  (pysum (firstn (p + 1) distance) + lamb) / Qnat (p + 1).

(** ** The aggregator [Autogm] *)

Section Autogm.

(** Update vectors (torch tensors), the clients that hold them, and the
    collaborators of [__call__] that live outside this file of the sources. *)
Context {V client : Type}.
Variable get_update : client -> res V.
(** [_compute_euclidean_distance(v1, v2) = (v1 - v2).norm()] *)
Variable _compute_euclidean_distance : V -> V -> Q.
(** [self.gm_agg = Geomed()], called as [self.gm_agg(updates, alpha)];
    [blades/aggregators/geomed.py] is not among the sources, so the
    solver is a parameter that may raise. *)
Variable gm_agg : list V -> list Q -> res V.
Variable zeros_like : V -> V.

Record Autogm := { momentum : option V }.

Definition geometric_median_objective (median : V) (points : list V)
    (alphas : list Q) : Q :=
  pysum (map (fun ap : Q * V =>
                fst ap * _compute_euclidean_distance median (snd ap))
             (combine alphas points)).

(** The objective of the specification,
    [sum_i alpha_i * ||median - update_i|| + (lambda/2) * ||alpha||^2]. *)
Definition spec_objective (lamb : Q) (alpha : list Q) (median : V)
    (updates : list V) : Q :=
  fold_right Qplus 0
    (map (fun ap : Q * V =>
            fst ap * _compute_euclidean_distance median (snd ap))
         (combine alpha updates))
  + (lamb / 2) * fold_right Qplus 0 (map (fun a => a * a) alpha).

(** Local variables of [__call__] that live across iterations. *)
Record loop_state := {
  ls_alpha : list Q;
  ls_median : V;
  ls_global_obj : Q
}.

Definition lamb_of (updates : list V) : Q := 1 * Qnat (length updates).

(** Lines 30-34. *)
Definition init_state (updates : list V) : res loop_state :=
  let lamb := lamb_of updates in
  let alpha := map (fun o => o / Qnat (length updates))
                   (repeat 1 (length updates)) in
  median ← gm_agg updates alpha;
  let obj_val := geometric_median_objective median updates alpha in
  let global_obj := obj_val + lamb * norm_sq alpha / 2 in
  mret {| ls_alpha := alpha; ls_median := median; ls_global_obj := global_obj |}.

(** Lines 38-53: one pass of the loop body, up to the stopping test. *)
Definition body (updates : list V) (st : loop_state) : res loop_state :=
  let lamb := lamb_of updates in
  let distance :=
    map (fun local_model =>
           _compute_euclidean_distance local_model (ls_median st)) updates in
  let alpha := update_alpha distance lamb in
  median ← gm_agg updates alpha;
  let gm_sum := geometric_median_objective median updates alpha in
  let global_obj := gm_sum + lamb * norm_sq alpha / 2 in
  mret {| ls_alpha := alpha; ls_median := median; ls_global_obj := global_obj |}.

(** Line 54: [abs(prev_global_obj - global_obj) < ftol * global_obj]. *)
Definition converged (ftol : Q) (prev_global_obj global_obj : Q) : bool :=
  Qltb (Qabs (prev_global_obj - global_obj)) (ftol * global_obj).

(** Lines 36-55: [for i in range(maxiter)] with its [break]. *)
Fixpoint outer_loop (maxiter : nat) (ftol : Q) (updates : list V)
    (st : loop_state) : res loop_state :=
  match maxiter with
  | O => mret st
  | S n =>
      let prev_global_obj := ls_global_obj st in
      st' ← body updates st;
      if converged ftol prev_global_obj (ls_global_obj st') then mret st'
      else outer_loop n ftol updates st'
  end.

(** Lines 26-29: collecting the updates and the lazy creation of the
    momentum buffer; [updates[0]] raises on an empty list. *)
Definition init_momentum (self : Autogm) (updates : list V) : res Autogm :=
  match momentum self with
  | Some _ => mret self
  | None =>
      match updates with
      | [] => Raise IndexError
      | u0 :: _ => mret {| momentum := Some (zeros_like u0) |}
      end
  end.

(** [Autogm.__call__(clients, weights=None, maxiter, eps, ftol)]: what
    the call returns or raises, and the aggregator it leaves behind.
    [weights] and [eps] are accepted and never used. *)
Definition __call__ (self : Autogm) (clients : list client)
    (maxiter : nat) (eps ftol : Q) : res V * Autogm :=
  match mapM get_update clients with
  | Raise e => (Raise e, self)
  | Ok updates =>
      match init_momentum self updates with
      | Raise e => (Raise e, self)
      | Ok self1 =>
          match init_state updates ≫= outer_loop maxiter ftol updates with
          | Raise e => (Raise e, self1)
          | Ok st =>
              let self2 := {| momentum := Some (ls_median st) |} in
              (Ok (ls_median st), self2)
          end
      end
  end.

(** The loop states of the specification's step 5, without the
    stopping test: [iterates updates k] is the state after [k] passes. *)
Fixpoint iterates (updates : list V) (k : nat) : res loop_state :=
  match k with
  | O => init_state updates
  | S j => iterates updates j ≫= body updates
  end.

(** "The absolute change in objective is below [ftol] times the new objective." *)
Definition small_change (ftol : Q) (prev new : loop_state) : Prop :=
  Qabs (ls_global_obj prev - ls_global_obj new) < ftol * ls_global_obj new.

Definition stops_at (ftol : Q) (updates : list V) (k : nat) : Prop :=
  exists j prev new, k = S j /\ iterates updates j = Ok prev
                     /\ iterates updates k = Ok new /\ small_change ftol prev new.

End Autogm.

Arguments Autogm V : clear implicits.
Arguments loop_state V : clear implicits.

(** ** One-dimensional instance of the aggregator's collaborators

    With [D = 1] an update vector is one rational and the Euclidean
    distance is the absolute difference, so the whole of [__call__] can be
    evaluated. *)

Module OneDim.

Definition _compute_euclidean_distance (v1 v2 : Q) : Q := Qabs (v1 - v2).

Definition zeros_like (_ : Q) : Q := 0.

(** Walk the points in ascending order and stop at the first one where
    the accumulated weight reaches half of the total weight. *)
Fixpoint first_reaching (half acc : Q) (last : Q) (pw : list (Q * Q)) : Q :=
  match pw with
  | [] => last
  | (p, w) :: pw' =>
      if Qle_bool half (acc + w) then p
      else first_reaching half (acc + w) p pw'
  end.

(** Modelled from the spec: [GeometricMedianSolver.solve(points, weights)]
    ([Geomed], in [blades/aggregators/geomed.py], is missing from the
    sources).  The contract asks for the point minimising
    [sum_i weight_i * ||point - p_i||] under the precondition [N >= 1];
    in dimension one such a point is a weighted median of the points. *)
Definition gm_agg (points : list Q) (weights : list Q) : res Q :=
  match points with
  | [] => Raise SolverError
  | p0 :: _ =>
      let pw := sorted fst Qltb (combine points weights) in
      Ok (first_reaching (pysum weights / 2) 0 p0 pw)
  end.

(** The quantity the contract minimises, [sum_i weight_i * |z - p_i|],
    first over a list of (point, weight) pairs. *)
Definition weight_sum (pw : list (Q * Q)) : Q :=
  fold_right Qplus 0 (map snd pw).

Definition pair_cost (z : Q) (pw : list (Q * Q)) : Q :=
  fold_right Qplus 0 (map (fun a => snd a * Qabs (z - fst a)) pw).

Definition weighted_distance (z : Q) (points weights : list Q) : Q :=
  pair_cost z (combine points weights).

(** Order of the (point, weight) pairs by their point. *)
Definition key_le (a b : Q * Q) : Prop := fst a <= fst b.

(** A client is represented by the update it holds. *)
Definition get_update (c : Q) : res Q := Ok c.

Definition __call__ :=
  __call__ get_update _compute_euclidean_distance gm_agg zeros_like.

Definition iterates := iterates _compute_euclidean_distance gm_agg.

Definition stops_at := stops_at _compute_euclidean_distance gm_agg.

Definition spec_objective := spec_objective _compute_euclidean_distance.

End OneDim.

(** ** Tensors and the state shared by the client classes *)

Module Torch.

(** Entry type of a tensor with the operations the clients use;
    [nan_to_num_entry] is [torch.nan_to_num], with its default
    arguments, on one entry. *)
Class Scalar (A : Type) := {
  smul : A -> A -> A;
  sadd : A -> A -> A;
  ssub : A -> A -> A;
  sone : A;
  nan_to_num_entry : A -> A
}.

(** Exact rationals: every entry is finite, nothing to replace. *)
#[global] Instance Q_scalar : Scalar Q := {
  smul := Qmult;
  sadd := Qplus;
  ssub := Qminus;
  sone := 1;
  nan_to_num_entry := fun x => x
}.

(** IEEE-754 binary32, the default dtype of torch tensors. *)
Definition prec : Z := 24.
Definition emax : Z := 128.

(** [torch.nan_to_num(input, nan=0.0, posinf=None, neginf=None)] as
    documented by torch: NaN becomes zero, positive infinity the
    greatest finite value of the dtype, negative infinity the least
    finite value; all other entries are kept. *)
Definition float_nan_to_num (x : spec_float) : spec_float :=
  match x with
  | S754_nan => S754_zero false
  | S754_infinity false => SFmax_float prec emax
  | S754_infinity true => SFopp (SFmax_float prec emax)
  | _ => x
  end.

#[global] Instance float_scalar : Scalar spec_float := {
  smul := SFmul prec emax;
  sadd := SFadd prec emax;
  ssub := SFsub prec emax;
  sone := SFone prec emax;
  nan_to_num_entry := float_nan_to_num
}.

Definition is_finite (x : spec_float) : bool :=
  match x with
  | S754_zero _ | S754_finite _ _ _ => true
  | _ => false
  end.

(** A tensor, flattened. *)
Abbreviation tensor A := (list A).

Section State.
Context {A : Type}.

(** A [torch.nn.Parameter]: its values and its [.grad] slot. *)
Record Param := {
  data : tensor A;
  grad : option (tensor A);
  requires_grad : bool
}.

Definition with_grad (p : Param) (g : option (tensor A)) : Param :=
  {| data := data p; grad := g; requires_grad := requires_grad p |}.

(** The attributes of a client that the gradient/update interface
    touches.  Parameters are identified by their position in
    [self.model.parameters()]; [param_groups] lists, group by group,
    the parameters the optimizer holds; [state] is the
    [defaultdict(dict)] keyed by parameter; [saved_update] is the
    entry [self.state['saved_update']]. *)
Record TorchClient := {
  parameters : list Param;
  param_groups : list (list nat);
  state : gmap nat (gmap string (tensor A));
  saved_update : option (tensor A)
}.

(** [self.state[p]] on a [defaultdict(dict)]. *)
Definition param_state (st : gmap nat (gmap string (tensor A))) (i : nat)
    : gmap string (tensor A) :=
  default ∅ (st !! i).

Definition with_state (c : TorchClient) (st : gmap nat (gmap string (tensor A)))
    : TorchClient :=
  {| parameters := parameters c; param_groups := param_groups c;
     state := st; saved_update := saved_update c |}.

Definition with_parameters (c : TorchClient) (ps : list Param) : TorchClient :=
  {| parameters := ps; param_groups := param_groups c;
     state := state c; saved_update := saved_update c |}.

(** The momentum subclasses add the attribute [self.momentum]. *)
Record MomentumClient := {
  base : TorchClient;
  momentum : A
}.

(** [self.optimizer.zero_grad(); ...; loss.backward()]: the model and
    the loss live outside these classes, so the pass is represented
    by its outcome, the gradient each parameter ends up with
    ([None] for a parameter that receives none). *)
Definition backward (gs : list (option (tensor A))) (c : TorchClient) : TorchClient :=
  with_parameters c
    (imap (fun i p => with_grad p (mjoin (gs !! i))) (parameters c)).

(** [t[beg:end]] for [0 <= beg <= end]. *)
Definition slice (t : tensor A) (beg en : nat) : tensor A :=
  take (en - beg) (drop beg t).

(** [torch.cat(layers)]: refuses an empty list of tensors. *)
Definition cat (layers : list (tensor A)) : res (tensor A) :=
  match layers with
  | [] => Raise RuntimeError
  | _ => Ok (concat layers)
  end.

(** [for group in self.optimizer.param_groups: for p in group["params"]] *)
Definition optimizer_params (c : TorchClient) : list nat :=
  concat (param_groups c).

(** What [set_model] and [detach_model] build: one group holding
    [self.model.parameters()] in order. *)
Definition single_group (c : TorchClient) : Prop :=
  param_groups c = [seq 0 (length (parameters c))].

End State.

Arguments Param A : clear implicits.
Arguments TorchClient A : clear implicits.
Arguments MomentumClient A : clear implicits.

(** [self.state[p]["momentum_buffer"]] of parameter [i], if present. *)
Definition momentum_buffer {A} (c : MomentumClient A) (i : nat) : option (tensor A) :=
  param_state (state (base c)) i !! "momentum_buffer".

(** Entrywise equality of rational tensors. *)
Definition tensor_eq (s t : tensor Q) : Prop := Forall2 Qeq s t.

End Torch.

(** ** [blades/client.py] *)

Module Client.
Import Torch.

(** class [TorchClient] *)
Module TorchClient.
Section Methods.
Context {A : Type} `{Scalar A}.

(** Loop body of [_save_para]: parameters that do not require a
    gradient are skipped. *)
Definition save_para_param (ps : list (Param A))
    (st : gmap nat (gmap string (tensor A))) (i : nat)
    : gmap nat (gmap string (tensor A)) :=
  match ps !! i with
  | None => st
  | Some p =>
      if requires_grad p
      then <[i := <["saved_para" := data p]> (param_state st i)]> st
      else st
  end.

Definition _save_para (c : TorchClient A) : TorchClient A :=
  with_state c
    (fold_left (save_para_param (parameters c)) (optimizer_params c) (state c)).

(** Loop body of [_get_para(current)]: parameters whose [grad] is
    [None] are skipped. *)
Definition para_layer (current : bool) (c : TorchClient A) (i : nat)
    : res (option (tensor A)) :=
  match parameters c !! i with
  | None => Ok None
  | Some p =>
      match grad p with
      | None => Ok None
      | Some _ =>
          if current then Ok (Some (data p))
          else match param_state (state c) i !! "saved_para" with
               | Some t => Ok (Some t)
               | None => Raise KeyError
               end
      end
  end.

Definition _get_para (current : bool) (c : TorchClient A) : res (tensor A) :=
  layer_parameters ← mapM (para_layer current c) (optimizer_params c);
  cat (omap id layer_parameters).

(** [self._get_para(current=True) - self._get_para(current=False)] *)
Definition para_difference (c : TorchClient A) : res (tensor A) :=
  cur ← _get_para true c;
  old ← _get_para false c;
  if Nat.eqb (length cur) (length old) then mret (zip_with ssub cur old)
  else Raise RuntimeError.

(** [_save_update(update)]: [self.state['saved_update'] = update.detach()] *)
Definition _save_update (update : tensor A) (c : TorchClient A) : TorchClient A :=
  {| parameters := parameters c; param_groups := param_groups c;
     state := state c; saved_update := Some update |}.

(** End of [local_training]: the difference is computed by the
    caller and handed to [_save_update]. *)
Definition finalize_update (c : TorchClient A) : res (TorchClient A) :=
  update ← para_difference c;
  mret (_save_update update c).

(** [_get_saved_update()]: [self.state['saved_update']]; before any
    update is saved the [defaultdict] hands out an empty dict, not a
    tensor. *)
Definition _get_saved_update (c : TorchClient A) : option (tensor A) :=
  saved_update c.

(** [get_update()]: [torch.nan_to_num(self._get_saved_update())] *)
Definition get_update (c : TorchClient A) : res (tensor A) :=
  match _get_saved_update c with
  | Some u => Ok (map nan_to_num_entry u)
  | None => Raise TypeError
  end.

(** Loop body of [_save_grad]: parameters whose [grad] is [None] are
    skipped, the others get a copy of it under ["saved_grad"]. *)
Definition save_grad_param (ps : list (Param A))
    (st : gmap nat (gmap string (tensor A))) (i : nat)
    : gmap nat (gmap string (tensor A)) :=
  match ps !! i with
  | None => st
  | Some p =>
      match grad p with
      | None => st
      | Some g => <[i := <["saved_grad" := g]> (param_state st i)]> st
      end
  end.

Definition _save_grad (c : TorchClient A) : TorchClient A :=
  with_state c
    (fold_left (save_grad_param (parameters c)) (optimizer_params c) (state c)).

(** [compute_gradient]: a backward pass followed by [self._save_grad()]. *)
Definition compute_gradient (gs : list (option (tensor A)))
    (c : TorchClient A) : TorchClient A :=
  _save_grad (backward gs c).

(** [param_state[key].data.view(-1)]; a missing key raises [KeyError]. *)
Definition saved_layer (key : string)
    (st : gmap nat (gmap string (tensor A))) (i : nat) : res (tensor A) :=
  match param_state st i !! key with
  | Some t => Ok t
  | None => Raise KeyError
  end.

(** [_get_saved_grad()]: every parameter of the optimizer is read,
    with no test on [p.grad]. *)
Definition _get_saved_grad (c : TorchClient A) : res (tensor A) :=
  layer_gradients ← mapM (saved_layer "saved_grad" (state c)) (optimizer_params c);
  cat layer_gradients.

Definition get_gradient (c : TorchClient A) : res (tensor A) :=
  _get_saved_grad c.

(** Loop of [set_gradient(gradient)] over [self.model.parameters()]:
    [p.grad.view(-1)] raises [AttributeError] when [p.grad] is [None],
    [reshape_as] raises [RuntimeError] when the slice has the wrong
    number of entries. *)
Fixpoint set_gradient_loop (gradient : tensor A) (beg : nat)
    (ps : list (Param A)) : res (list (Param A)) :=
  match ps with
  | [] => Ok []
  | p :: ps' =>
      match grad p with
      | None => Raise AttributeError
      | Some g =>
          let en := (beg + length g)%nat in
          let x := slice gradient beg en in
          if Nat.eqb (length x) (length g) then
            ps'' ← set_gradient_loop gradient en ps';
            mret (with_grad p (Some x) :: ps'')
          else Raise RuntimeError
      end
  end.

Definition set_gradient (gradient : tensor A) (c : TorchClient A)
    : res (TorchClient A) :=
  ps ← set_gradient_loop gradient 0 (parameters c);
  mret (with_parameters c ps).

End Methods.
End TorchClient.

(** class [ClientWithMomentum(TorchClient)] *)
Module ClientWithMomentum.
Section Methods.
Context {A : Type} `{Scalar A}.

(** Loop body of the overriding [_save_grad].  On the [else] branch
    [p.grad.mul_(1 - self.momentum)] rescales the gradient tensor of
    the parameter itself, and the result is added to the buffer
    already multiplied by [self.momentum]. *)
Definition save_grad_param (m : A)
    (acc : list (Param A) * gmap nat (gmap string (tensor A))) (i : nat)
    : list (Param A) * gmap nat (gmap string (tensor A)) :=
  let '(ps, st) := acc in
  match ps !! i with
  | None => acc
  | Some p =>
      match grad p with
      | None => acc
      | Some g =>
          let ps_i := param_state st i in
          match ps_i !! "momentum_buffer" with
          | None => (ps, <[i := <["momentum_buffer" := g]> ps_i]> st)
          | Some buf =>
              let buf1 := map (fun x => smul x m) buf in
              let g1 := map (fun x => smul x (ssub sone m)) g in
              let buf2 := zip_with sadd buf1 g1 in
              (<[i := with_grad p (Some g1)]> ps,
               <[i := <["momentum_buffer" := buf2]> ps_i]> st)
          end
      end
  end.

Definition _save_grad (c : MomentumClient A) : MomentumClient A :=
  let r := fold_left (save_grad_param (momentum c)) (optimizer_params (base c))
                     (parameters (base c), state (base c)) in
  {| base := with_parameters (with_state (base c) (snd r)) (fst r);
     momentum := momentum c |}.

(** Inherited [compute_gradient]: a backward pass followed by
    [self._save_grad()]. *)
Definition compute_gradient (gs : list (option (tensor A)))
    (c : MomentumClient A) : MomentumClient A :=
  _save_grad {| base := backward gs (base c); momentum := momentum c |}.

(** The overriding [_get_saved_grad()] reads ["momentum_buffer"]. *)
Definition _get_saved_grad (c : MomentumClient A) : res (tensor A) :=
  layer_gradients ←
    mapM (TorchClient.saved_layer "momentum_buffer" (state (base c)))
         (optimizer_params (base c));
  cat layer_gradients.

(** Inherited [get_gradient], dispatching to the override. *)
Definition get_gradient (c : MomentumClient A) : res (tensor A) :=
  _get_saved_grad c.

(** Inherited [get_update] and [set_gradient]. *)
Definition get_update (c : MomentumClient A) : res (tensor A) :=
  TorchClient.get_update (base c).

Definition set_gradient (gradient : tensor A) (c : MomentumClient A)
    : res (MomentumClient A) :=
  b ← TorchClient.set_gradient gradient (base c);
  mret {| base := b; momentum := momentum c |}.

End Methods.
End ClientWithMomentum.

End Client.

(** ** [simulators/actor.py] *)

Module Actor.
Import Torch.

(** class [TorchClient] *)
Module TorchClient.
Section Methods.
Context {A : Type} `{Scalar A}.

(** Loop body of [_save_para]: parameters that do not require a
    gradient are skipped. *)
Definition save_para_param (ps : list (Param A))
    (st : gmap nat (gmap string (tensor A))) (i : nat)
    : gmap nat (gmap string (tensor A)) :=
  match ps !! i with
  | None => st
  | Some p =>
      if requires_grad p
      then <[i := <["saved_para" := data p]> (param_state st i)]> st
      else st
  end.

Definition _save_para (c : TorchClient A) : TorchClient A :=
  with_state c
    (fold_left (save_para_param (parameters c)) (optimizer_params c) (state c)).

(** Loop body of [_get_para(current)]: parameters whose [grad] is
    [None] are skipped. *)
Definition para_layer (current : bool) (c : TorchClient A) (i : nat)
    : res (option (tensor A)) :=
  match parameters c !! i with
  | None => Ok None
  | Some p =>
      match grad p with
      | None => Ok None
      | Some _ =>
          if current then Ok (Some (data p))
          else match param_state (state c) i !! "saved_para" with
               | Some t => Ok (Some t)
               | None => Raise KeyError
               end
      end
  end.

Definition _get_para (current : bool) (c : TorchClient A) : res (tensor A) :=
  layer_parameters ← mapM (para_layer current c) (optimizer_params c);
  cat (omap id layer_parameters).

(** [self._get_para(current=True) - self._get_para(current=False)] *)
Definition para_difference (c : TorchClient A) : res (tensor A) :=
  cur ← _get_para true c;
  old ← _get_para false c;
  if Nat.eqb (length cur) (length old) then mret (zip_with ssub cur old)
  else Raise RuntimeError.

(** [_save_update()]: computes the difference itself and stores it. *)
Definition _save_update (c : TorchClient A) : res (TorchClient A) :=
  update ← para_difference c;
  mret {| parameters := parameters c; param_groups := param_groups c;
          state := state c; saved_update := Some update |}.

(** [_get_saved_update()]: [self.state['saved_update']]; before any
    update is saved the [defaultdict] hands out an empty dict, not a
    tensor. *)
Definition _get_saved_update (c : TorchClient A) : option (tensor A) :=
  saved_update c.

(** [get_update()]: [torch.nan_to_num(self._get_saved_update())] *)
Definition get_update (c : TorchClient A) : res (tensor A) :=
  match _get_saved_update c with
  | Some u => Ok (map nan_to_num_entry u)
  | None => Raise TypeError
  end.

(** Loop body of [_save_grad]: parameters whose [grad] is [None] are
    skipped, the others get a copy of it under ["saved_grad"]. *)
Definition save_grad_param (ps : list (Param A))
    (st : gmap nat (gmap string (tensor A))) (i : nat)
    : gmap nat (gmap string (tensor A)) :=
  match ps !! i with
  | None => st
  | Some p =>
      match grad p with
      | None => st
      | Some g => <[i := <["saved_grad" := g]> (param_state st i)]> st
      end
  end.

Definition _save_grad (c : TorchClient A) : TorchClient A :=
  with_state c
    (fold_left (save_grad_param (parameters c)) (optimizer_params c) (state c)).

(** [compute_gradient]: a backward pass followed by [self._save_grad()]. *)
Definition compute_gradient (gs : list (option (tensor A)))
    (c : TorchClient A) : TorchClient A :=
  _save_grad (backward gs c).

(** [param_state[key].data.view(-1)]; a missing key raises [KeyError]. *)
Definition saved_layer (key : string)
    (st : gmap nat (gmap string (tensor A))) (i : nat) : res (tensor A) :=
  match param_state st i !! key with
  | Some t => Ok t
  | None => Raise KeyError
  end.

(** [_get_saved_grad()]: every parameter of the optimizer is read,
    with no test on [p.grad]. *)
Definition _get_saved_grad (c : TorchClient A) : res (tensor A) :=
  layer_gradients ← mapM (saved_layer "saved_grad" (state c)) (optimizer_params c);
  cat layer_gradients.

Definition get_gradient (c : TorchClient A) : res (tensor A) :=
  _get_saved_grad c.

(** Loop of [set_gradient(gradient)] over [self.model.parameters()]:
    [p.grad.view(-1)] raises [AttributeError] when [p.grad] is [None],
    [reshape_as] raises [RuntimeError] when the slice has the wrong
    number of entries. *)
Fixpoint set_gradient_loop (gradient : tensor A) (beg : nat)
    (ps : list (Param A)) : res (list (Param A)) :=
  match ps with
  | [] => Ok []
  | p :: ps' =>
      match grad p with
      | None => Raise AttributeError
      | Some g =>
          let en := (beg + length g)%nat in
          let x := slice gradient beg en in
          if Nat.eqb (length x) (length g) then
            ps'' ← set_gradient_loop gradient en ps';
            mret (with_grad p (Some x) :: ps'')
          else Raise RuntimeError
      end
  end.

Definition set_gradient (gradient : tensor A) (c : TorchClient A)
    : res (TorchClient A) :=
  ps ← set_gradient_loop gradient 0 (parameters c);
  mret (with_parameters c ps).

End Methods.
End TorchClient.

(** class [WorkerWithMomentum(TorchClient)] *)
Module WorkerWithMomentum.
Section Methods.
Context {A : Type} `{Scalar A}.

(** Loop body of the overriding [_save_grad].  On the [else] branch
    [p.grad.mul_(1 - self.momentum)] rescales the gradient tensor of
    the parameter itself, and the result is added to the buffer
    already multiplied by [self.momentum]. *)
Definition save_grad_param (m : A)
    (acc : list (Param A) * gmap nat (gmap string (tensor A))) (i : nat)
    : list (Param A) * gmap nat (gmap string (tensor A)) :=
  let '(ps, st) := acc in
  match ps !! i with
  | None => acc
  | Some p =>
      match grad p with
      | None => acc
      | Some g =>
          let ps_i := param_state st i in
          match ps_i !! "momentum_buffer" with
          | None => (ps, <[i := <["momentum_buffer" := g]> ps_i]> st)
          | Some buf =>
              let buf1 := map (fun x => smul x m) buf in
              let g1 := map (fun x => smul x (ssub sone m)) g in
              let buf2 := zip_with sadd buf1 g1 in
              (<[i := with_grad p (Some g1)]> ps,
               <[i := <["momentum_buffer" := buf2]> ps_i]> st)
          end
      end
  end.

Definition _save_grad (c : MomentumClient A) : MomentumClient A :=
  let r := fold_left (save_grad_param (momentum c)) (optimizer_params (base c))
                     (parameters (base c), state (base c)) in
  {| base := with_parameters (with_state (base c) (snd r)) (fst r);
     momentum := momentum c |}.

(** Inherited [compute_gradient]: a backward pass followed by
    [self._save_grad()]. *)
Definition compute_gradient (gs : list (option (tensor A)))
    (c : MomentumClient A) : MomentumClient A :=
  _save_grad {| base := backward gs (base c); momentum := momentum c |}.

(** The overriding [_get_saved_grad()] reads ["momentum_buffer"]. *)
Definition _get_saved_grad (c : MomentumClient A) : res (tensor A) :=
  layer_gradients ←
    mapM (TorchClient.saved_layer "momentum_buffer" (state (base c)))
         (optimizer_params (base c));
  cat layer_gradients.

(** Inherited [get_gradient], dispatching to the override. *)
Definition get_gradient (c : MomentumClient A) : res (tensor A) :=
  _get_saved_grad c.

(** Inherited [get_update] and [set_gradient]. *)
Definition get_update (c : MomentumClient A) : res (tensor A) :=
  TorchClient.get_update (base c).

Definition set_gradient (gradient : tensor A) (c : MomentumClient A)
    : res (MomentumClient A) :=
  b ← TorchClient.set_gradient gradient (base c);
  mret {| base := b; momentum := momentum c |}.

End Methods.
End WorkerWithMomentum.

End Actor.

(** ** Reference statements and example states *)

Module Examples.
Import Torch.

(** Five one-dimensional updates, in two orders. *)
Definition updates_a : list Q := [3; -20; 0; 4; -22].
Definition updates_b : list Q := [0; 3; 4; -20; -22].

Definition ftol : Q := 1 # 1000000.
Definition eps : Q := 1 # 1000000.

(** "Every non-finite entry is replaced by exactly 0 and every finite
    entry is unchanged", for a stored update [u] and a returned [r]. *)
Definition zero_sanitized (u r : tensor spec_float) : Prop :=
  length r = length u
  /\ forall i x, u !! i = Some x ->
       r !! i = Some (if is_finite x then x else S754_zero false).

(** A solver that is [OneDim.gm_agg] on one point or more and answers
    [0] when asked for the median of no points; the contract of the
    solver starts at [N >= 1] and says nothing about the empty list. *)
Definition answering_gm_agg (points : list Q) (weights : list Q) : res Q :=
  match points with
  | [] => Ok 0
  | _ :: _ => OneDim.gm_agg points weights
  end.

(** A client whose stored update is the single entry [+Inf]. *)
Definition inf_client : TorchClient spec_float :=
  {| parameters := []; param_groups := []; state := ∅;
     saved_update := Some [S754_infinity false] |}.

(** A stored update with a NaN, both infinities, [1.0] and [-0.0]. *)
Definition mixed_client : TorchClient spec_float :=
  {| parameters := []; param_groups := []; state := ∅;
     saved_update := Some [S754_nan; S754_infinity false; S754_infinity true;
                           S754_finite false 8388608 (-23); S754_zero true] |}.

(** A model with a trained weight and a frozen one ([grad] is [None]),
    held by an optimizer built from [model.parameters()]. *)
Definition frozen_client : TorchClient Q :=
  {| parameters := [ {| data := [7; 8]; grad := Some [1; 2]; requires_grad := true |};
                     {| data := [9]; grad := None; requires_grad := false |} ];
     param_groups := [[0; 1]%nat];
     state := ∅;
     saved_update := None |}.

(** The same model with both parameters trained. *)
Definition trained_client : TorchClient Q :=
  {| parameters := [ {| data := [7; 8]; grad := Some [1; 2]; requires_grad := true |};
                     {| data := [9]; grad := Some [3]; requires_grad := true |} ];
     param_groups := [[0; 1]%nat];
     state := ∅;
     saved_update := None |}.

(** A momentum client with factor [1/2] and one scalar parameter. *)
Definition half_momentum_client : MomentumClient Q :=
  {| base := {| parameters := [ {| data := [0]; grad := None; requires_grad := true |} ];
                param_groups := [[0%nat]];
                state := ∅;
                saved_update := None |};
     momentum := 1 # 2 |}.

(** The same client after one training step with the gradient [[1]]:
    its buffer exists. *)
Definition warm_momentum_client : MomentumClient Q :=
  Client.ClientWithMomentum.compute_gradient [Some [1]] half_momentum_client.

(** A momentum client with factor [0] after one training step with
    the gradient [[5]]: its buffer exists. *)
Definition zero_momentum_client : MomentumClient Q :=
  Client.ClientWithMomentum.compute_gradient [Some [5]]
    {| base := {| parameters := [ {| data := [0]; grad := None; requires_grad := true |} ];
                  param_groups := [[0%nat]];
                  state := ∅;
                  saved_update := None |};
       momentum := 0 |}.

(** A parameter that kept its gradient after [requires_grad] was
    switched off. *)
Definition detached_client : TorchClient Q :=
  {| parameters := [ {| data := [7; 8]; grad := Some [1; 2]; requires_grad := false |} ];
     param_groups := [[0%nat]];
     state := ∅;
     saved_update := None |}.

(** A client on which no update has been saved yet. *)
Definition fresh_client : TorchClient spec_float :=
  {| parameters := []; param_groups := []; state := ∅; saved_update := None |}.

(** The closed form of the specification for the buffer after [k]
    steps with the constant gradient [g]: [g * (1 - (1 - m)^k)]. *)
Definition closed_form_buffer (m : Q) (g : tensor Q) (k : nat) : tensor Q :=
  map (fun x => x * (1 - (1 - m) ^ Z.of_nat k)) g.

End Examples.

(** ** Local training ([blades/client.py], lines 138-156) *)

Module Training.
Import Torch.

Section Methods.
Context {A : Type} `{Scalar A}.

(** [self.optimizer.step()]: the optimizer class is chosen by the caller
    of [set_model], so the step is a parameter. *)
Variable optimizer_step : TorchClient A -> TorchClient A.

(** [apply_gradient()] *)
Definition apply_gradient (c : TorchClient A) : TorchClient A :=
  optimizer_step c.

(** One pass of the loop of [local_training]: [zero_grad], forward and
    backward (represented by the gradients [gs] they leave), then
    [apply_gradient]. *)
Definition training_step (c : TorchClient A) (gs : list (option (tensor A)))
    : TorchClient A :=
  apply_gradient (backward gs c).

(** [local_training(num_rounds, use_actor, data_batches)]: one entry of
    [batches] per batch of [data_batches]. *)
Definition local_training (batches : list (list (option (tensor A))))
    (c : TorchClient A) : res (TorchClient A) :=
  let c1 := Client.TorchClient._save_para c in
  let c2 := fold_left training_step batches c1 in
  Client.TorchClient.finalize_update c2.

End Methods.

Section SGD.
Context {A : Type} `{Scalar A}.

Definition with_data (p : Param A) (d : tensor A) : Param A :=
  {| data := d; grad := grad p; requires_grad := requires_grad p |}.

(** [torch.optim.SGD(self.model.parameters(), lr=lr)], the optimizer
    that [detach_model] builds (no momentum, no weight decay), as
    documented by torch: every parameter that has a gradient is moved by
    [- lr * grad]; the others are left alone. *)
Definition sgd_param (lr : A) (ps : list (Param A)) (i : nat) : list (Param A) :=
  match ps !! i with
  | None => ps
  | Some p =>
      match grad p with
      | None => ps
      | Some g =>
          <[i := with_data p (zip_with (fun x gx => ssub x (smul lr gx)) (data p) g)]> ps
      end
  end.

Definition sgd_step (lr : A) (c : TorchClient A) : TorchClient A :=
  with_parameters c (fold_left (sgd_param lr) (optimizer_params c) (parameters c)).

End SGD.

End Training.

(** ** Metric registry ([simulators/actor.py], lines 54-62) *)

Module Metrics.

Section Registry.
(** The callbacks are opaque. *)
Context {M : Type}.

(** [add_metric(name, callback)] on [self.metrics]. *)
Definition add_metric (name : string) (callback : M) (metrics : gmap string M)
    : res (gmap string M) :=
  if bool_decide (is_Some (metrics !! name))
     || bool_decide (name ∈ ["loss"; "length"]%string)
  then Raise KeyError
  else Ok (<[name := callback]> metrics).

(** [add_metrics(metrics)]: the entries of the argument in insertion
    order; the registry reached when the loop ends or raises, and the
    exception if any. *)
Fixpoint add_metrics (new : list (string * M)) (metrics : gmap string M)
    : gmap string M * option exn :=
  match new with
  | [] => (metrics, None)
  | (name, callback) :: new' =>
      match add_metric name callback metrics with
      | Raise e => (metrics, Some e)
      | Ok metrics' => add_metrics new' metrics'
      end
  end.

End Registry.

End Metrics.

(** * Facts about the aggregator *)

(** ** Rational helpers *)

Lemma Qltb_lt (x y : Q) : Qltb x y = true <-> x < y.
Proof.
  unfold Qltb. rewrite negb_true_iff. split.
  - intros Hb. apply Qnot_le_lt. intros Hle.
    apply Qle_bool_iff in Hle. congruence.
  - intros Hlt. destruct (Qle_bool y x) eqn:E; [|reflexivity].
    apply Qle_bool_iff in E. exfalso. exact (Qlt_not_le _ _ Hlt E).
Qed.

Lemma Qltb_ge (x y : Q) : Qltb x y = false <-> y <= x.
Proof.
  unfold Qltb. rewrite negb_false_iff. apply Qle_bool_iff.
Qed.

Lemma fold_left_Qplus_acc (l : list Q) (a : Q) :
  fold_left Qplus l a == a + fold_right Qplus 0 l.
Proof.
  revert a. induction l as [|x l IH]; intros a; simpl.
  - ring.
  - rewrite IH. ring.
Qed.

Lemma pysum_fold_right (l : list Q) : pysum l == fold_right Qplus 0 l.
Proof. unfold pysum. rewrite fold_left_Qplus_acc. ring. Qed.

(** ** The sort of line 41 leaves the indices in their original order *)

Lemma py_insert_front {A K} (key : A -> K) (ltb : K -> K -> bool) x l :
  match l with
  | [] => True
  | y :: _ => ltb (key y) (key x) = false
  end ->
  py_insert key ltb x l = x :: l.
Proof.
  destruct l as [|y l]; simpl; [reflexivity|].
  intros ->. reflexivity.
Qed.

Lemma sorted_cons {A K} (key : A -> K) (ltb : K -> K -> bool) x l :
  sorted key ltb (x :: l) = py_insert key ltb x (sorted key ltb l).
Proof. reflexivity. Qed.

Lemma sorted_enumerate_from (k : nat) (d : list Q) :
  sorted (fun x => x) tuple_ltb (combine (seq k (length d)) d)
  = combine (seq k (length d)) d.
Proof.
  revert k. induction d as [|a d IH]; intros k; [reflexivity|].
  cbn [length seq combine]. rewrite sorted_cons, IH.
  apply py_insert_front.
  destruct d as [|b d]; cbn [length seq combine]; [exact I|].
  unfold tuple_ltb; cbn [fst snd].
  destruct (Nat.eqb_spec (S k) k) as [E|_]; [lia|].
  apply Nat.ltb_ge. lia.
Qed.

Lemma map_fst_combine_seq {A} (k : nat) (d : list A) :
  map fst (combine (seq k (length d)) d) = seq k (length d).
Proof.
  revert k. induction d as [|a d IH]; intros k; simpl; [reflexivity|].
  now rewrite IH.
Qed.

Lemma idxs_original_order (distance : list Q) :
  idxs distance = seq 0 (length distance).
Proof.
  unfold idxs, enumerate.
  rewrite sorted_enumerate_from. apply map_fst_combine_seq.
Qed.

(** C1 (code defect).  The specification asks the threshold search to visit
    the participants by ascending distance.  Line 41 sorts the pairs
    [(index, distance)] by the pair itself, so for every distance vector
    the visiting order is the original index order [0, 1, ..., N-1].  At
    the distances [10, 0, 0] with [lamb = 3] (three one-dimensional
    updates [10], [0], [0] around the median [0]) the code visits
    [0, 1, 2] and ends with [eta_optimal = 13/3], whereas the search by
    ascending distance visits [1, 2, 0] and stops with [3/2]. *)
Theorem threshold_search_visits_index_order :
  (forall distance, idxs distance = seq 0 (length distance))
  /\ idxs [10; 0; 0] = [0; 1; 2]%nat
  /\ spec_idxs [10; 0; 0] = [1; 2; 0]%nat
  /\ eta_optimal [10; 0; 0] 3 == 13 # 3
  /\ spec_eta_optimal [10; 0; 0] 3 == 3 # 2
  /\ ~ eta_optimal [10; 0; 0] 3 == spec_eta_optimal [10; 0; 0] 3.
Proof.
  split; [exact idxs_original_order|].
  repeat split; try reflexivity.
  vm_compute. discriminate.
Qed.

(** ** The outer loop of [__call__] *)

Lemma mapM_res_nonempty {A B} (f : A -> res B) (x : A) (l : list A) (ys : list B) :
  mapM f (x :: l) = Ok ys -> ys <> [].
Proof.
  cbn. destruct (f x) as [y|e]; cbn; [|discriminate].
  destruct (mapM f l) as [k|e]; cbn; [|discriminate].
  intros [= <-]. discriminate.
Qed.

Section AutogmFacts.

Context {V client : Type}.
Variable get_update : client -> res V.
Variable _compute_euclidean_distance : V -> V -> Q.
Variable gm_agg : list V -> list Q -> res V.
Variable zeros_like : V -> V.

Local Abbreviation call' :=
  (__call__ get_update _compute_euclidean_distance gm_agg zeros_like).
Local Abbreviation dist := _compute_euclidean_distance.
Local Abbreviation init_state' := (init_state dist gm_agg).
Local Abbreviation body' := (body dist gm_agg).
Local Abbreviation outer_loop' := (outer_loop dist gm_agg).
Local Abbreviation iterates' := (iterates dist gm_agg).
Local Abbreviation stops_at' := (stops_at dist gm_agg).
Local Abbreviation spec_objective' := (spec_objective dist).

Lemma lamb_of_length (updates : list V) :
  lamb_of updates == Qnat (length updates).
Proof. unfold lamb_of. ring. Qed.

Lemma global_obj_is_spec_objective (median : V) (updates : list V) (alpha : list Q) :
  geometric_median_objective dist median updates alpha
    + lamb_of updates * norm_sq alpha / 2
  == spec_objective' (Qnat (length updates)) alpha median updates.
Proof.
  unfold geometric_median_objective, norm_sq, spec_objective.
  rewrite !pysum_fold_right, lamb_of_length. field.
Qed.

Lemma init_state_objective updates st :
  init_state' updates = Ok st ->
  ls_global_obj st
  == spec_objective' (Qnat (length updates)) (ls_alpha st) (ls_median st) updates.
Proof.
  unfold init_state.
  destruct (gm_agg updates _) as [z|e]; cbn; [|discriminate].
  intros [= <-]. cbn. apply global_obj_is_spec_objective.
Qed.

Lemma body_objective updates st st' :
  body' updates st = Ok st' ->
  ls_global_obj st'
  == spec_objective' (Qnat (length updates)) (ls_alpha st') (ls_median st') updates.
Proof.
  unfold body.
  destruct (gm_agg updates _) as [z|e]; cbn; [|discriminate].
  intros [= <-]. cbn. apply global_obj_is_spec_objective.
Qed.

Lemma iterates_objective updates k st :
  iterates' updates k = Ok st ->
  ls_global_obj st
  == spec_objective' (Qnat (length updates)) (ls_alpha st) (ls_median st) updates.
Proof.
  destruct k as [|j]; cbn.
  - apply init_state_objective.
  - destruct (iterates' updates j) as [a|e]; cbn; [|discriminate].
    apply body_objective.
Qed.

Lemma converged_small_change ftol (prev new : loop_state V) :
  converged ftol (ls_global_obj prev) (ls_global_obj new) = true
  <-> small_change ftol prev new.
Proof. unfold converged, small_change. apply Qltb_lt. Qed.

Section SolverAnswers.

Variable updates : list V.
Hypothesis solver_answers : forall alpha, exists z, gm_agg updates alpha = Ok z.

Lemma init_state_answers : exists st, init_state' updates = Ok st.
Proof.
  unfold init_state.
  destruct (solver_answers
    (map (fun o => o / Qnat (length updates)) (repeat 1 (length updates))))
    as [z ->].
  cbn. eauto.
Qed.

Lemma body_answers st : exists st', body' updates st = Ok st'.
Proof.
  unfold body.
  destruct (solver_answers
    (update_alpha (map (fun u => dist u (ls_median st)) updates) (lamb_of updates)))
    as [z ->].
  cbn. eauto.
Qed.

(** Started in the state reached after [j0] passes, the loop makes
    [k <= maxiter] further passes: it stops at the first pass whose
    objective change is small, or after [maxiter] passes. *)
Lemma outer_loop_trace ftol maxiter : forall j0 st0,
  iterates' updates j0 = Ok st0 ->
  exists k st,
    (k <= maxiter)%nat
    /\ iterates' updates (j0 + k) = Ok st
    /\ outer_loop' maxiter ftol updates st0 = Ok st
    /\ (forall j, (j0 < j < j0 + k)%nat -> ~ stops_at' ftol updates j)
    /\ ((k < maxiter)%nat -> stops_at' ftol updates (j0 + k)).
Proof.
  induction maxiter as [|n IH]; intros j0 st0 H0.
  - exists 0%nat, st0. rewrite Nat.add_0_r.
    repeat split; auto; intros; lia.
  - destruct (body_answers st0) as [st1 H1].
    assert (HS : iterates' updates (S j0) = Ok st1) by (cbn; rewrite H0; exact H1).
    cbn [outer_loop]. rewrite H1. cbn.
    destruct (converged ftol (ls_global_obj st0) (ls_global_obj st1)) eqn:Hc.
    + exists 1%nat, st1. replace (j0 + 1)%nat with (S j0) by lia.
      repeat split; auto; try lia.
      intros _. exists j0, st0, st1.
      repeat split; auto. now apply converged_small_change.
    + destruct (IH (S j0) st1 HS) as (k & st & Hk & Hit & Hloop & Hno & Hstop).
      exists (S k), st. replace (j0 + S k)%nat with (S j0 + k)%nat by lia.
      repeat split; auto; try lia.
      * intros j Hj [j' [prev [new (Hjj & Hprev & Hnew & Hsmall)]]].
        destruct (Nat.eq_dec j (S j0)) as [->|Hne].
        -- injection Hjj as <-.
           rewrite H0 in Hprev. injection Hprev as <-.
           rewrite HS in Hnew. injection Hnew as <-.
           apply converged_small_change in Hsmall. congruence.
        -- apply (Hno j); [lia|]. exists j', prev, new. auto.
      * intros Hlt. apply Hstop. lia.
Qed.

End SolverAnswers.

(** C6.  For a non-empty list of updates on which the solver answers,
    [__call__] does not raise: it returns the median of the loop
    state after some [k <= maxiter] passes.  Every loop state carries
    the objective [sum_i alpha_i * ||median - update_i|| +
    (lambda/2) * ||alpha||^2] with [lambda = N]; no pass before the
    [k]-th had an objective change below [ftol] times the new
    objective; and when [k < maxiter] the [k]-th pass had one (the loop
    stopped there), so that without convergence [k = maxiter] and the
    last computed median is returned and stored as momentum. *)
Theorem autogm_objective_and_stopping
    (self : Autogm V) (clients : list client) (updates : list V)
    (maxiter : nat) (eps ftol : Q) :
  mapM get_update clients = Ok updates ->
  updates <> [] ->
  (forall alpha, exists z, gm_agg updates alpha = Ok z) ->
  exists k st,
    (k <= maxiter)%nat
    /\ iterates' updates k = Ok st
    /\ call' self clients maxiter eps ftol
       = (Ok (ls_median st), {| momentum := Some (ls_median st) |})
    /\ (forall j st_j, iterates' updates j = Ok st_j ->
          ls_global_obj st_j
          == spec_objective' (Qnat (length updates))
               (ls_alpha st_j) (ls_median st_j) updates)
    /\ (forall j, (0 < j < k)%nat -> ~ stops_at' ftol updates j)
    /\ ((k < maxiter)%nat -> stops_at' ftol updates k)
    /\ ((forall j, (0 < j <= maxiter)%nat -> ~ stops_at' ftol updates j) ->
          k = maxiter).
Proof.
  intros Hupd Hne Hsolver.
  destruct (init_state_answers updates Hsolver) as [st0 H0].
  destruct (outer_loop_trace updates Hsolver ftol maxiter 0%nat st0 H0)
    as (k & st & Hk & Hit & Hloop & Hno & Hstop).
  exists k, st. cbn in Hit.
  split; [exact Hk|]. split; [exact Hit|]. split.
  - unfold __call__. rewrite Hupd.
    assert (Hm : exists self1, init_momentum zeros_like self updates = Ok self1).
    { unfold init_momentum. destruct (momentum self); [eauto|].
      destruct updates; [congruence|eauto]. }
    destruct Hm as [self1 ->].
    rewrite H0. cbn. rewrite Hloop. reflexivity.
  - split; [intros j st_j; apply iterates_objective|].
    split; [exact Hno|]. split; [exact Hstop|].
    intros Hnever.
    destruct (Nat.eq_dec k maxiter) as [->|Hneq]; [reflexivity|].
    assert (Hlt : (k < maxiter)%nat) by lia.
    pose proof (Hstop Hlt) as Hs.
    destruct k as [|k'].
    + destruct Hs as (j & ? & ? & Hj & _). discriminate.
    + exfalso. apply (Hnever (S k')); [lia|exact Hs].
Qed.

End AutogmFacts.

(** ** The momentum buffer and calls without participants *)

Section AutogmMomentum.

Context {V client : Type}.
Variable get_update : client -> res V.
Variable _compute_euclidean_distance : V -> V -> Q.
Variable gm_agg : list V -> list Q -> res V.
Variable zeros_like : V -> V.

Local Abbreviation dist := _compute_euclidean_distance.

Local Abbreviation call' :=
  (__call__ get_update _compute_euclidean_distance gm_agg zeros_like).

Lemma init_momentum_nonempty (self : Autogm V) (updates : list V) :
  updates <> [] -> exists self1, init_momentum zeros_like self updates = Ok self1.
Proof.
  intros Hne. unfold init_momentum.
  destruct (momentum self); [eauto|].
  destruct updates; [congruence|eauto].
Qed.

(** C9.  The value held in the momentum buffer never reaches the
    result.  Two calls with the same clients and parameters return (or
    raise) the same whatever tensors their buffers held; with at least
    one client the same holds between a first call (buffer [None],
    created as zeros) and any later call; and a call that returns
    leaves exactly the returned median in the buffer. *)
Theorem momentum_buffer_never_read
    (clients : list client) (maxiter : nat) (eps ftol : Q) :
  (forall v1 v2 : V,
      fst (call' {| momentum := Some v1 |} clients maxiter eps ftol)
      = fst (call' {| momentum := Some v2 |} clients maxiter eps ftol))
  /\ (clients <> [] ->
      forall self1 self2 : Autogm V,
        fst (call' self1 clients maxiter eps ftol)
        = fst (call' self2 clients maxiter eps ftol))
  /\ (forall (self self' : Autogm V) (v : V),
        call' self clients maxiter eps ftol = (Ok v, self') ->
        momentum self' = Some v).
Proof.
  split; [|split].
  - intros v1 v2. unfold __call__.
    destruct (mapM get_update clients) as [updates|e]; [|reflexivity].
    cbn. destruct (init_state dist gm_agg updates ≫= _); reflexivity.
  - intros Hne self1 self2. unfold __call__.
    destruct (mapM get_update clients) as [updates|e] eqn:Hm; [|reflexivity].
    assert (Hu : updates <> []).
    { destruct clients as [|c cs]; [congruence|].
      eapply mapM_res_nonempty; eauto. }
    destruct (init_momentum_nonempty self1 updates Hu) as [s1 ->].
    destruct (init_momentum_nonempty self2 updates Hu) as [s2 ->].
    destruct (init_state dist gm_agg updates ≫= _); reflexivity.
  - intros self self' v. unfold __call__.
    destruct (mapM get_update clients) as [updates|e]; [|discriminate].
    destruct (init_momentum zeros_like self updates) as [s1|e]; [|discriminate].
    destruct (init_state dist gm_agg updates ≫= _) as [st|e]; [|discriminate].
    intros [= <- <-]. reflexivity.
Qed.

(** Without updates a pass has nothing to measure: the weights stay
    empty and the median is whatever the solver answers on no points. *)
Lemma body_no_updates (st : loop_state V) :
  body dist gm_agg [] st
  = (z ← gm_agg [] [];
     mret {| ls_alpha := []; ls_median := z;
             ls_global_obj := pysum [] + lamb_of (@nil V) * norm_sq [] / 2 |}).
Proof. reflexivity. Qed.

Lemma outer_loop_no_updates (ftol : Q) (z : V) :
  gm_agg [] [] = Ok z ->
  forall (n : nat) (st : loop_state V),
    ls_median st = z ->
    exists st', outer_loop dist gm_agg n ftol [] st = Ok st' /\ ls_median st' = z.
Proof.
  intros Hz. induction n as [|n IH]; intros st Hst.
  - exists st. split; [reflexivity|exact Hst].
  - cbn [outer_loop]. rewrite body_no_updates, Hz. cbn.
    destruct (converged ftol _ _).
    + eexists. split; reflexivity.
    + apply IH. reflexivity.
Qed.


End AutogmMomentum.

(** ** The one-dimensional solver meets the contract of the specification *)

Lemma weight_sum_app l k :
  OneDim.weight_sum (l ++ k) == OneDim.weight_sum l + OneDim.weight_sum k.
Proof.
  unfold OneDim.weight_sum.
  induction l as [|a l IH]; cbn [fold_right map app]; [ring|].
  rewrite IH. ring.
Qed.

Lemma pair_cost_app z l k :
  OneDim.pair_cost z (l ++ k) == OneDim.pair_cost z l + OneDim.pair_cost z k.
Proof.
  unfold OneDim.pair_cost.
  induction l as [|a l IH]; cbn [fold_right map app]; [ring|].
  rewrite IH. ring.
Qed.

Lemma weight_sum_perm l k : Permutation l k -> OneDim.weight_sum l == OneDim.weight_sum k.
Proof.
  unfold OneDim.weight_sum. induction 1; cbn [fold_right map]; try ring.
  - rewrite IHPermutation. ring.
  - etransitivity; eauto.
Qed.

Lemma pair_cost_perm z l k :
  Permutation l k -> OneDim.pair_cost z l == OneDim.pair_cost z k.
Proof.
  unfold OneDim.pair_cost. induction 1; cbn [fold_right map]; try ring.
  - rewrite IHPermutation. ring.
  - etransitivity; eauto.
Qed.

Lemma weight_sum_nonneg l : Forall (fun a => 0 <= snd a) l -> 0 <= OneDim.weight_sum l.
Proof.
  unfold OneDim.weight_sum. induction 1 as [|a l Ha _ IH]; cbn [fold_right map]; lra.
Qed.

Lemma py_insert_perm {A K} (key : A -> K) ltb x l :
  Permutation (py_insert key ltb x l) (x :: l).
Proof.
  induction l as [|y l IH]; cbn; [done|].
  destruct (ltb (key y) (key x)); [|done].
  rewrite IH. apply perm_swap.
Qed.

Lemma sorted_perm {A K} (key : A -> K) ltb l :
  Permutation (sorted key ltb l) l.
Proof.
  induction l as [|x l IH]; [done|].
  rewrite sorted_cons, py_insert_perm. by constructor.
Qed.

Lemma py_insert_sorted x l :
  StronglySorted OneDim.key_le l -> StronglySorted OneDim.key_le (py_insert fst Qltb x l).
Proof.
  induction 1 as [|y l Hl IH Hy]; cbn.
  - repeat constructor.
  - destruct (Qltb (fst y) (fst x)) eqn:E.
    + constructor; [exact IH|].
      rewrite py_insert_perm. constructor; [|exact Hy].
      apply Qltb_lt in E. unfold OneDim.key_le. lra.
    + apply Qltb_ge in E. constructor; [by constructor|].
      constructor; [exact E|].
      eapply Forall_impl; [exact Hy|]. unfold OneDim.key_le. intros a Ha. cbn in *. lra.
Qed.

Lemma sorted_sorted l : StronglySorted OneDim.key_le (sorted fst Qltb l).
Proof.
  induction l as [|x l IH]; [constructor|].
  rewrite sorted_cons. by apply py_insert_sorted.
Qed.

Lemma sorted_split (l1 l2 : list (Q * Q)) x :
  StronglySorted OneDim.key_le (l1 ++ x :: l2) ->
  Forall (fun a => fst a <= fst x) l1 /\ Forall (fun a => fst x <= fst a) l2.
Proof.
  induction l1 as [|a l1 IH]; cbn; intros Hs.
  - apply StronglySorted_inv in Hs as [_ Hx]. split; [constructor|exact Hx].
  - apply StronglySorted_inv in Hs as [Hs Ha].
    destruct (IH Hs) as [H1 H2]. split; [|exact H2].
    constructor; [|exact H1].
    apply Forall_app in Ha as [_ Ha]. apply Forall_cons in Ha as [Ha _]. exact Ha.
Qed.

Lemma weight_sum_cons a l : OneDim.weight_sum (a :: l) == snd a + OneDim.weight_sum l.
Proof. reflexivity. Qed.

Lemma pair_cost_cons z a l :
  OneDim.pair_cost z (a :: l) == snd a * Qabs (z - fst a) + OneDim.pair_cost z l.
Proof. reflexivity. Qed.

(** The scan stops at a pair with at most half of the total weight
    strictly before it and at least half up to and including it. *)
Lemma scan_finds half : forall S P acc last,
  Forall (fun a => 0 <= snd a) S ->
  acc == OneDim.weight_sum P -> acc <= half -> (S = [] -> acc < half) ->
  2 * half == OneDim.weight_sum P + OneDim.weight_sum S -> 0 <= OneDim.weight_sum P ->
  exists L1 w L2,
    P ++ S = L1 ++ (OneDim.first_reaching half acc last S, w) :: L2
    /\ OneDim.weight_sum L1 <= half /\ half <= OneDim.weight_sum L1 + w.
Proof.
  induction S as [|[p w] S IH]; intros P acc last Hnn Hacc Hle Hlt Hhalf Hpos.
  - exfalso. specialize (Hlt eq_refl). change (OneDim.weight_sum []) with 0 in Hhalf. lra.
  - apply Forall_cons in Hnn as [Hw Hnn]. cbn [snd] in Hw.
    rewrite weight_sum_cons in Hhalf. cbn [snd] in Hhalf.
    cbn [OneDim.first_reaching].
    destruct (Qle_bool half (acc + w)) eqn:E.
    + apply Qle_bool_iff in E. exists P, w, S. repeat split; lra.
    + assert (Hnot : acc + w < half).
      { apply Qnot_le_lt. intros Hc. apply Qle_bool_iff in Hc. congruence. }
      assert (Hsum : OneDim.weight_sum (P ++ [(p, w)]) == OneDim.weight_sum P + w).
      { rewrite weight_sum_app, weight_sum_cons.
        change (OneDim.weight_sum []) with 0. cbn [snd]. ring. }
      destruct (IH (P ++ [(p, w)]) (acc + w) p) as (L1 & w' & L2 & Heq & H1 & H2);
        try lra; try done.
      exists L1, w', L2. rewrite <- Heq, <- app_assoc. done.
Qed.

Lemma abs_shift_le (z m p : Q) :
  p <= m -> m <= z -> Qabs (z - p) == Qabs (m - p) + (z - m).
Proof.
  intros H1 H2. rewrite !Qabs_pos by lra. ring.
Qed.

Lemma abs_shift_ge (z m p : Q) :
  m <= p -> z <= m -> Qabs (z - p) == Qabs (m - p) + (m - z).
Proof.
  intros H1 H2. rewrite !Qabs_neg by lra. ring.
Qed.

Lemma abs_shift_any (z m p : Q) : Qabs (m - p) - Qabs (z - m) <= Qabs (z - p).
Proof.
  pose proof (Qabs_triangle (z - p) (m - z)) as Ht.
  assert (E : z - p + (m - z) == m - p) by ring. rewrite E in Ht.
  assert (E2 : Qabs (m - z) == Qabs (z - m)).
  { rewrite <- (Qabs_opp (z - m)). apply Qabs_wd. ring. }
  lra.
Qed.

Lemma pair_cost_below m z l :
  m <= z -> Forall (fun a => fst a <= m) l ->
  OneDim.pair_cost z l == OneDim.pair_cost m l + (z - m) * OneDim.weight_sum l.
Proof.
  intros Hz. induction 1 as [|a l Ha _ IH].
  - change (OneDim.pair_cost z []) with 0. change (OneDim.pair_cost m []) with 0.
    change (OneDim.weight_sum []) with 0. ring.
  - rewrite !pair_cost_cons, weight_sum_cons, IH, (abs_shift_le z m (fst a)) by done. ring.
Qed.

Lemma pair_cost_above m z l :
  z <= m -> Forall (fun a => m <= fst a) l ->
  OneDim.pair_cost z l == OneDim.pair_cost m l + (m - z) * OneDim.weight_sum l.
Proof.
  intros Hz. induction 1 as [|a l Ha _ IH].
  - change (OneDim.pair_cost z []) with 0. change (OneDim.pair_cost m []) with 0.
    change (OneDim.weight_sum []) with 0. ring.
  - rewrite !pair_cost_cons, weight_sum_cons, IH, (abs_shift_ge z m (fst a)) by done. ring.
Qed.

Lemma pair_cost_any m z l :
  Forall (fun a => 0 <= snd a) l ->
  OneDim.pair_cost m l - Qabs (z - m) * OneDim.weight_sum l <= OneDim.pair_cost z l.
Proof.
  induction 1 as [|a l Ha _ IH].
  - change (OneDim.pair_cost z []) with 0. change (OneDim.pair_cost m []) with 0.
    change (OneDim.weight_sum []) with 0. lra.
  - rewrite !pair_cost_cons, weight_sum_cons.
    pose proof (abs_shift_any z m (fst a)) as Hs.
    nra.
Qed.

(** Such a pair of a list sorted by point is a minimiser. *)
Lemma split_optimal (L1 L2 : list (Q * Q)) (m w half : Q) :
  StronglySorted OneDim.key_le (L1 ++ (m, w) :: L2) ->
  Forall (fun a => 0 <= snd a) (L1 ++ (m, w) :: L2) ->
  2 * half == OneDim.weight_sum (L1 ++ (m, w) :: L2) ->
  OneDim.weight_sum L1 <= half -> half <= OneDim.weight_sum L1 + w ->
  forall z,
    OneDim.pair_cost m (L1 ++ (m, w) :: L2)
    <= OneDim.pair_cost z (L1 ++ (m, w) :: L2).
Proof.
  intros Hs Hnn Hhalf H1 H2 z.
  destruct (sorted_split L1 L2 (m, w) Hs) as [Hlow Hhigh]. cbn [fst] in Hlow, Hhigh.
  apply Forall_app in Hnn as [Hnn1 Hnn2].
  apply Forall_cons in Hnn2 as [Hw Hnn2]. cbn [snd] in Hw.
  rewrite weight_sum_app, weight_sum_cons in Hhalf. cbn [snd] in Hhalf.
  rewrite !pair_cost_app, !pair_cost_cons. cbn [fst snd].
  assert (E0 : Qabs (m - m) == 0).
  { assert (E : m - m == 0) by ring. rewrite E. reflexivity. }
  rewrite E0.
  destruct (Qlt_le_dec z m) as [Hlt|Hge].
  - rewrite (pair_cost_above m z L2 (Qlt_le_weak _ _ Hlt) Hhigh).
    pose proof (pair_cost_any m z L1 Hnn1) as Hany.
    assert (Ea : Qabs (z - m) == m - z) by (rewrite Qabs_neg; lra).
    rewrite Ea in *.
    pose proof (weight_sum_nonneg L1 Hnn1). pose proof (weight_sum_nonneg L2 Hnn2).
    nra.
  - rewrite (pair_cost_below m z L1 Hge Hlow).
    pose proof (pair_cost_any m z L2 Hnn2) as Hany.
    assert (Ea : Qabs (z - m) == z - m) by (rewrite Qabs_pos; lra).
    rewrite Ea in *.
    pose proof (weight_sum_nonneg L1 Hnn1). pose proof (weight_sum_nonneg L2 Hnn2).
    nra.
Qed.

Lemma combine_nonneg (points weights : list Q) :
  Forall (fun w => 0 <= w) weights ->
  Forall (fun a : Q * Q => 0 <= snd a) (combine points weights).
Proof.
  intros Hw. revert points. induction Hw as [|w ws Hw _ IH]; intros [|p ps]; cbn;
    constructor; auto.
Qed.

Lemma weight_sum_combine (points weights : list Q) :
  length points = length weights ->
  OneDim.weight_sum (combine points weights) == pysum weights.
Proof.
  rewrite pysum_fold_right. revert weights.
  induction points as [|p ps IH]; intros [|w ws] Hlen; try discriminate; [reflexivity|].
  cbn [combine]. rewrite weight_sum_cons. cbn [snd fold_right].
  rewrite IH by (cbn in Hlen; lia).
  reflexivity.
Qed.

(** For points and non-negative weights of the same length, the point
    returned by the one-dimensional solver minimises the weighted sum of
    distances. *)
Lemma one_dim_solver_minimises (points weights : list Q) (m : Q) :
  length points = length weights ->
  Forall (fun w => 0 <= w) weights ->
  OneDim.gm_agg points weights = Ok m ->
  forall z,
    OneDim.weighted_distance m points weights
    <= OneDim.weighted_distance z points weights.
Proof.
  intros Hlen Hw Hm z. unfold OneDim.weighted_distance.
  destruct points as [|p0 ps]; [discriminate|].
  assert (Hm' : OneDim.first_reaching (pysum weights / 2) 0 p0
                  (sorted fst Qltb (combine (p0 :: ps) weights)) = m).
  { unfold OneDim.gm_agg in Hm. congruence. }
  clear Hm.
  set (L := combine (p0 :: ps) weights) in *.
  set (S := sorted fst Qltb L) in *.
  assert (Hperm : Permutation S L) by apply sorted_perm.
  assert (HnnL : Forall (fun a : Q * Q => 0 <= snd a) L) by by apply combine_nonneg.
  assert (HnnS : Forall (fun a : Q * Q => 0 <= snd a) S) by by rewrite Hperm.
  assert (Hhalf : 2 * (pysum weights / 2) == OneDim.weight_sum [] + OneDim.weight_sum S).
  { rewrite (weight_sum_perm S L Hperm). unfold L. rewrite weight_sum_combine by done.
    change (OneDim.weight_sum []) with 0. field. }
  assert (Hpos : 0 <= pysum weights / 2).
  { rewrite <- (weight_sum_combine (p0 :: ps) weights Hlen). fold L.
    apply Qmult_le_0_compat; [by apply weight_sum_nonneg|discriminate]. }
  set (half := pysum weights / 2) in *.
  assert (HS : S = [] -> 0 < half).
  { intros HS. exfalso. rewrite HS in Hperm. apply Permutation_nil in Hperm.
    unfold L in Hperm. destruct weights; discriminate. }
  assert (H0 : 0 <= OneDim.weight_sum []) by (change (OneDim.weight_sum []) with 0; lra).
  destruct (scan_finds half S [] 0 p0 HnnS (Qeq_refl _) Hpos HS Hhalf H0)
    as (L1 & w & L2 & Heq & H1 & H2).
  - rewrite Hm' in Heq. cbn [app] in Heq.
    rewrite <- !(pair_cost_perm _ S L Hperm). rewrite Heq.
    apply (split_optimal L1 L2 m w half).
    + rewrite <- Heq. apply sorted_sorted.
    + by rewrite <- Heq.
    + rewrite <- Heq. change (OneDim.weight_sum []) with 0 in Hhalf. lra.
    + exact H1.
    + exact H2.
Qed.

(** ** Concrete runs in dimension one *)

Lemma one_dim_solver_answers (p : Q) (ps : list Q) (alpha : list Q) :
  exists z, OneDim.gm_agg (p :: ps) alpha = Ok z.
Proof. unfold OneDim.gm_agg. eauto. Defined.

Lemma autogm_objective_and_stopping_witness :
  exists k st,
    (k <= 100)%nat
    /\ OneDim.iterates Examples.updates_b k = Ok st
    /\ OneDim.__call__ {| momentum := None |} Examples.updates_b 100
         Examples.eps Examples.ftol
       = (Ok (ls_median st), {| momentum := Some (ls_median st) |})
    /\ (forall j st_j,
          OneDim.iterates Examples.updates_b j = Ok st_j ->
          ls_global_obj st_j
          == OneDim.spec_objective (Qnat (length Examples.updates_b))
               (ls_alpha st_j) (ls_median st_j) Examples.updates_b)
    /\ (forall j, (0 < j < k)%nat ->
          ~ OneDim.stops_at Examples.ftol Examples.updates_b j)
    /\ ((k < 100)%nat -> OneDim.stops_at Examples.ftol Examples.updates_b k)
    /\ ((forall j, (0 < j <= 100)%nat ->
           ~ OneDim.stops_at Examples.ftol Examples.updates_b j) ->
          k = 100%nat).
Proof.
  apply (autogm_objective_and_stopping
           OneDim.get_update OneDim._compute_euclidean_distance
           OneDim.gm_agg OneDim.zeros_like {| momentum := None |}
           Examples.updates_b Examples.updates_b 100 Examples.eps Examples.ftol).
  - reflexivity.
  - discriminate.
  - intros alpha. apply one_dim_solver_answers.
Defined.

Lemma momentum_buffer_never_read_witness :
  fst (OneDim.__call__ {| momentum := None |} Examples.updates_a 100
         Examples.eps Examples.ftol)
  = fst (OneDim.__call__ {| momentum := Some 7 |} Examples.updates_a 100
           Examples.eps Examples.ftol).
Proof.
  apply (momentum_buffer_never_read
           OneDim.get_update OneDim._compute_euclidean_distance
           OneDim.gm_agg OneDim.zeros_like
           Examples.updates_a 100 Examples.eps Examples.ftol).
  discriminate.
Defined.


(** C3 (code defect, the one of C1).  [updates_a] and [updates_b] hold the
    same five one-dimensional updates in two orders; all distances to the
    first median [0] are distinct.  Because the threshold search scans in
    input order, the first pass gives the update [3] the weight [1] in one
    order and [1/5] in the other, and the two calls return [3] and [0]. *)
Theorem autogm_depends_on_input_order :
  Permutation Examples.updates_a Examples.updates_b
  /\ Forall2 Qeq (update_alpha [3; 20; 0; 4; 22] 5) [1; 0; 8 # 5; 4 # 5; 0]
  /\ Forall2 Qeq (update_alpha [0; 3; 4; 20; 22] 5) [4 # 5; 1 # 5; 0; 0; 0]
  /\ (exists a, fst (OneDim.__call__ {| momentum := None |} Examples.updates_a 100
                       Examples.eps Examples.ftol) = Ok a /\ a == 3)
  /\ (exists b, fst (OneDim.__call__ {| momentum := None |} Examples.updates_b 100
                       Examples.eps Examples.ftol) = Ok b /\ b == 0).
Proof.
  split.
  { unfold Examples.updates_a, Examples.updates_b.
    apply (Permutation_cons_app [0] [4; -20; -22]). cbn.
    apply (Permutation_cons_app [0; 4] [-22]). cbn.
    reflexivity. }
  split. { vm_compute. repeat constructor. }
  split. { vm_compute. repeat constructor. }
  split; eexists; (split; [vm_compute; reflexivity|vm_compute; reflexivity]).
Qed.

(** * Facts about the clients *)

Lemma lookup_map {A B} (f : A -> B) (l : list A) (i : nat) :
  map f l !! i = f <$> l !! i.
Proof.
  revert i. induction l as [|x l IH]; intros [|i]; cbn; auto.
Qed.

(** ** [get_update] *)

Section Sanitization.
Import Torch.

Lemma float_nan_to_num_cases (x : spec_float) :
  (x = S754_nan -> float_nan_to_num x = S754_zero false)
  /\ (x = S754_infinity false ->
      float_nan_to_num x = S754_finite false 16777215 104)
  /\ (x = S754_infinity true ->
      float_nan_to_num x = S754_finite true 16777215 104)
  /\ (is_finite x = true -> float_nan_to_num x = x)
  /\ is_finite (float_nan_to_num x) = true.
Proof.
  destruct x as [s|s| |s m e]; try destruct s; cbn;
    repeat split; intros; try discriminate; reflexivity.
Qed.

(** C2, as amended.  For a stored update [u] of [D] entries,
    [get_update] returns without raising a vector of the same [D]
    entries in which every NaN is replaced by [+0], [+Inf] by the
    greatest finite binary32 value [(2^24 - 1) * 2^104], [-Inf] by its
    opposite, and every finite entry is unchanged; all returned entries
    are finite. *)
Theorem get_update_sanitizes (c : TorchClient spec_float) (u : tensor spec_float) :
  saved_update c = Some u ->
  exists r,
    Client.TorchClient.get_update c = Ok r
    /\ length r = length u
    /\ forall i x, u !! i = Some x ->
         exists y, r !! i = Some y
           /\ (x = S754_nan -> y = S754_zero false)
           /\ (x = S754_infinity false -> y = S754_finite false 16777215 104)
           /\ (x = S754_infinity true -> y = S754_finite true 16777215 104)
           /\ (is_finite x = true -> y = x)
           /\ is_finite y = true.
Proof.
  intros Hu. unfold Client.TorchClient.get_update, Client.TorchClient._get_saved_update.
  rewrite Hu. eexists. split; [reflexivity|]. split.
  - apply length_map.
  - intros i x Hx. exists (float_nan_to_num x). split.
    + rewrite lookup_map, Hx. reflexivity.
    + apply float_nan_to_num_cases.
Qed.

Lemma get_update_sanitizes_witness :
  exists r,
    Client.TorchClient.get_update Examples.mixed_client = Ok r
    /\ length r = 5%nat
    /\ forall i x, [S754_nan; S754_infinity false; S754_infinity true;
                    S754_finite false 8388608 (-23); S754_zero true] !! i = Some x ->
         exists y, r !! i = Some y
           /\ (x = S754_nan -> y = S754_zero false)
           /\ (x = S754_infinity false -> y = S754_finite false 16777215 104)
           /\ (x = S754_infinity true -> y = S754_finite true 16777215 104)
           /\ (is_finite x = true -> y = x)
           /\ is_finite y = true.
Proof.
  exact (get_update_sanitizes Examples.mixed_client _ eq_refl).
Defined.

(** C2, as stated, fails: with the stored update [[+Inf]], [get_update]
    returns the greatest finite value, not [0]. *)
Lemma get_update_infinity_not_zero :
  ~ (forall (c : TorchClient spec_float) (u : tensor spec_float),
       saved_update c = Some u ->
       exists r, Client.TorchClient.get_update c = Ok r
                 /\ Examples.zero_sanitized u r).
Proof.
  intros Hall.
  destruct (Hall Examples.inf_client [S754_infinity false] eq_refl)
    as (r & Hr & _ & Hentries).
  vm_compute in Hr. injection Hr as <-.
  specialize (Hentries 0%nat (S754_infinity false) eq_refl).
  vm_compute in Hentries. discriminate.
Qed.

End Sanitization.

(** ** [set_gradient] after [get_gradient] *)

Lemma mapM_res_Forall2 {A B} (f : A -> res B) (l : list A) (k : list B) :
  Forall2 (fun x y => f x = Ok y) l k -> mapM f l = Ok k.
Proof.
  induction 1 as [|x y l k Hxy _ IH]; cbn; [reflexivity|].
  rewrite Hxy. cbn. rewrite IH. reflexivity.
Qed.

Section RoundTrip.
Import Torch.
Context {A : Type} `{Scalar A}.

Local Abbreviation save_plain := (Client.TorchClient.save_grad_param).

(** After the pass of [_save_grad], every visited parameter that has a
    gradient holds a copy of it under ["saved_grad"]. *)
Lemma fold_save_grad_plain (ps : list (Param A)) (l : list nat) :
  forall st (i : nat) p g,
    i ∈ l -> ps !! i = Some p -> grad p = Some g ->
    param_state (fold_left (save_plain ps) l st) i !! "saved_grad" = Some g.
Proof.
  induction l as [|j l IH] using rev_ind; intros st i p g Hin Hp Hg.
  - by apply elem_of_nil in Hin.
  - rewrite fold_left_app. cbn [fold_left].
    set (st1 := fold_left (save_plain ps) l st).
    destruct (decide (i = j)) as [<-|Hne].
    + unfold Client.TorchClient.save_grad_param. rewrite Hp, Hg.
      unfold param_state at 1. rewrite lookup_insert_eq. cbn.
      apply lookup_insert_eq.
    + apply elem_of_app in Hin as [Hin|Hin%list_elem_of_singleton]; [|done].
      pose proof (IH st i p g Hin Hp Hg) as Hst1. fold st1 in Hst1.
      unfold Client.TorchClient.save_grad_param.
      destruct (ps !! j) as [q|]; [|exact Hst1].
      destruct (grad q) as [gq|]; [|exact Hst1].
      unfold param_state at 1. rewrite lookup_insert_ne by done. exact Hst1.
Qed.

Lemma with_grad_same (p : Param A) g : grad p = Some g -> with_grad p (Some g) = p.
Proof. destruct p; cbn. by intros ->. Qed.

(** Scattering the concatenation of the gradients puts every gradient
    back in its place. *)
Lemma set_gradient_loop_concat (ps : list (Param A)) :
  forall (pre post : tensor A),
    Forall (fun p => is_Some (grad p)) ps ->
    Client.TorchClient.set_gradient_loop
      (pre ++ concat (omap grad ps) ++ post) (length pre) ps = Ok ps.
Proof.
  induction ps as [|p ps IH]; intros pre post Hall; [reflexivity|].
  apply Forall_cons in Hall as [[g Hg] Hall].
  cbn [Client.TorchClient.set_gradient_loop omap list_omap]. rewrite Hg. cbn [concat].
  assert (Hslice : slice (pre ++ (g ++ concat (omap grad ps)) ++ post)
                     (length pre) (length pre + length g) = g).
  { unfold slice. rewrite drop_app_length.
    replace (length pre + length g - length pre)%nat with (length g) by lia.
    rewrite <- app_assoc. apply take_app_length. }
  cbv zeta. rewrite Hslice, Nat.eqb_refl.
  replace (pre ++ (g ++ concat (omap grad ps)) ++ post)
    with ((pre ++ g) ++ concat (omap grad ps) ++ post)
    by (by rewrite <- !app_assoc).
  replace (length pre + length g)%nat with (length (pre ++ g))
    by (by rewrite length_app).
  rewrite (IH (pre ++ g) post Hall). cbn.
  by rewrite (with_grad_same p g Hg).
Qed.

(** X8.  On a client built by [set_model] whose parameters all have a
    gradient, [set_gradient(get_gradient())] after [_save_grad] returns
    the flattened gradients and leaves the client as it was. *)
Lemma set_get_gradient_round_trip (c : TorchClient A) :
  single_group c ->
  parameters c <> [] ->
  Forall (fun p => is_Some (grad p)) (parameters c) ->
  let c1 := Client.TorchClient._save_grad c in
  Client.TorchClient.get_gradient c1 = Ok (concat (omap grad (parameters c)))
  /\ Client.TorchClient.set_gradient (concat (omap grad (parameters c))) c1 = Ok c1.
Proof.
  intros Hgroup Hne Hall c1.
  assert (Hlayers :
    mapM (Client.TorchClient.saved_layer "saved_grad" (state c1))
         (optimizer_params c1) = Ok (omap grad (parameters c))).
  { apply mapM_res_Forall2.
    change (optimizer_params c1) with (optimizer_params c).
    change (state c1)
      with (fold_left (save_plain (parameters c)) (optimizer_params c) (state c)).
    unfold optimizer_params. rewrite Hgroup. cbn [concat]. rewrite app_nil_r.
    apply Forall2_same_length_lookup_2.
    - rewrite length_seq. symmetry.
      clear -Hall. induction Hall as [|p ps [g Hg] _ IH]; cbn; [done|].
      rewrite Hg. cbn. by rewrite IH.
    - intros i j gi Hi Hgi.
      apply lookup_seq in Hi as [Hj Hlt]. cbn in Hj. subst j.
      destruct (lookup_lt_is_Some_2 (parameters c) i Hlt) as [p Hp].
      assert (Hgp : grad p = Some gi).
      { clear -Hall Hp Hgi. revert i Hp Hgi.
        induction Hall as [|q ps [g Hg] _ IH]; intros i Hp Hgi; [done|].
        cbn in Hgi. rewrite Hg in Hgi. destruct i as [|i]; cbn in *.
        - congruence.
        - eauto. }
      assert (Hin : i ∈ optimizer_params c).
      { unfold optimizer_params. rewrite Hgroup. cbn [concat]. rewrite app_nil_r.
        apply elem_of_seq. lia. }
      pose proof (fold_save_grad_plain (parameters c) (optimizer_params c)
                    (state c) i p gi Hin Hp Hgp) as Hsaved.
      unfold optimizer_params in Hsaved.
      unfold Client.TorchClient.saved_layer. by rewrite Hsaved. }
  split.
  - unfold Client.TorchClient.get_gradient, Client.TorchClient._get_saved_grad.
    rewrite Hlayers. cbn. unfold cat.
    destruct (omap grad (parameters c)) as [|g0 gs] eqn:E; [|done].
    exfalso. destruct (parameters c) as [|p ps]; [done|].
    apply Forall_cons in Hall as [[g Hg] _]. cbn in E. by rewrite Hg in E.
  - unfold Client.TorchClient.set_gradient.
    pose proof (set_gradient_loop_concat (parameters c) [] [] Hall) as Hloop.
    rewrite app_nil_l, app_nil_r in Hloop. cbn in Hloop.
    change (parameters c1) with (parameters c). rewrite Hloop. reflexivity.
Qed.

End RoundTrip.


(** C4 (code defect).  [_save_grad] skips a parameter whose [grad] is
    [None], but the flatten and scatter paths do not: after
    [_save_grad] on a model with a frozen parameter, [get_gradient]
    raises [KeyError] on the missing ["saved_grad"] entry, and
    [set_gradient], given the gradient of the trained parameter alone,
    raises [AttributeError] at the frozen one.  With every parameter
    trained the same round trip leaves every gradient as it was. *)
Theorem gradient_round_trip_breaks_on_frozen_parameter :
  let c := Client.TorchClient._save_grad Examples.frozen_client in
  let t := Client.TorchClient._save_grad Examples.trained_client in
  Client.TorchClient.get_gradient c = Raise KeyError
  /\ Client.TorchClient.set_gradient [1; 2] c = Raise AttributeError
  /\ Client.TorchClient.get_gradient t = Ok [1; 2; 3]
  /\ Client.TorchClient.set_gradient [1; 2; 3] t = Ok t.
Proof.
  cbv zeta. repeat split; vm_compute; reflexivity.
Qed.

(** ** The two client implementations *)

(** C10.  On every state the methods of the gradient/update interface of
    [blades/client.py] and of [simulators/actor.py] return the same
    result and leave the same state. *)
Theorem client_and_actor_agree {A : Type} `{Torch.Scalar A}
    (c : Torch.TorchClient A) (mc : Torch.MomentumClient A)
    (gradient : Torch.tensor A) :
  Client.TorchClient.get_update c = Actor.TorchClient.get_update c
  /\ Client.TorchClient.get_gradient c = Actor.TorchClient.get_gradient c
  /\ Client.TorchClient.set_gradient gradient c
     = Actor.TorchClient.set_gradient gradient c
  /\ Client.TorchClient._save_grad c = Actor.TorchClient._save_grad c
  /\ Client.ClientWithMomentum._save_grad mc = Actor.WorkerWithMomentum._save_grad mc
  /\ Client.ClientWithMomentum.get_gradient mc
     = Actor.WorkerWithMomentum.get_gradient mc
  /\ Client.ClientWithMomentum.get_update mc = Actor.WorkerWithMomentum.get_update mc
  /\ Client.ClientWithMomentum.set_gradient gradient mc
     = Actor.WorkerWithMomentum.set_gradient gradient mc.
Proof.
  repeat split.
Qed.

(** ** The momentum variant of [_save_grad] *)

Section MomentumFacts.
Import Torch.
Context {A : Type} `{Scalar A}.

Local Abbreviation save := (Client.ClientWithMomentum.save_grad_param).

Lemma save_grad_param_other (m : A) ps st (i j : nat) :
  i <> j ->
  (save m (ps, st) j).1 !! i = ps !! i
  /\ (save m (ps, st) j).2 !! i = st !! i.
Proof.
  intros Hne. unfold Client.ClientWithMomentum.save_grad_param. cbv zeta.
  destruct (ps !! j) as [p|]; [|done].
  destruct (grad p) as [g|]; [|done].
  destruct (param_state st j !! "momentum_buffer") as [buf|]; cbn.
  - split; [by apply list_lookup_insert_ne|by apply lookup_insert_ne].
  - split; [done|by apply lookup_insert_ne].
Qed.

Lemma fold_save_grad_other (m : A) (l : list nat) : forall ps st (i : nat),
  i ∉ l ->
  (fold_left (save m) l (ps, st)).1 !! i = ps !! i
  /\ (fold_left (save m) l (ps, st)).2 !! i = st !! i.
Proof.
  induction l as [|j l IH]; intros ps st i Hi; [done|].
  apply not_elem_of_cons in Hi as [Hne Hi]. cbn [fold_left].
  destruct (save m (ps, st) j) as [ps1 st1] eqn:E.
  destruct (IH ps1 st1 i Hi) as [-> ->].
  pose proof (save_grad_param_other m ps st i j Hne) as Ho.
  rewrite E in Ho. exact Ho.
Qed.

Lemma param_state_lookup (st st' : gmap nat (gmap string (tensor A))) (i : nat) :
  st' !! i = st !! i -> param_state st' i = param_state st i.
Proof. unfold param_state. by intros ->. Qed.

(** The pass over the optimizer's parameters, seen from one parameter
    that has a gradient: first save. *)
Lemma fold_save_grad_first (m : A) (l : list nat) ps st (i : nat) p g :
  NoDup l -> i ∈ l ->
  ps !! i = Some p -> grad p = Some g ->
  param_state st i !! "momentum_buffer" = None ->
  (fold_left (save m) l (ps, st)).1 !! i = Some p
  /\ (fold_left (save m) l (ps, st)).2 !! i
     = Some (<["momentum_buffer" := g]> (param_state st i)).
Proof.
  intros Hnd Hin Hp Hg Hbuf.
  apply list_elem_of_split in Hin as (l1 & l2 & ->).
  apply NoDup_app in Hnd as (_ & Hl1 & Hnd2).
  apply NoDup_cons in Hnd2 as [Hl2 _].
  assert (Hi1 : i ∉ l1).
  { intros Hi. apply (Hl1 i Hi). left. }
  rewrite fold_left_app. cbn [fold_left].
  destruct (fold_left (save m) l1 (ps, st)) as [ps1 st1] eqn:E1.
  pose proof (fold_save_grad_other m l1 ps st i Hi1) as [Hps1 Hst1].
  rewrite E1 in Hps1, Hst1. cbn in Hps1, Hst1.
  assert (E : save m (ps1, st1) i
              = (ps1, <[i := <["momentum_buffer" := g]> (param_state st i)]> st1)).
  { unfold Client.ClientWithMomentum.save_grad_param.
    cbv zeta. rewrite Hps1, Hp, Hg, (param_state_lookup st st1 i Hst1), Hbuf. done. }
  rewrite E.
  destruct (fold_save_grad_other m l2 ps1
              (<[i := <["momentum_buffer" := g]> (param_state st i)]> st1) i Hl2)
    as [-> ->].
  split; [by rewrite Hps1|by rewrite lookup_insert_eq].
Qed.

(** Later saves: the buffer exists, the gradient of the parameter is
    rescaled in place and blended into the buffer. *)
Lemma fold_save_grad_later (m : A) (l : list nat) ps st (i : nat) p g buf :
  NoDup l -> i ∈ l ->
  ps !! i = Some p -> grad p = Some g ->
  param_state st i !! "momentum_buffer" = Some buf ->
  let g1 := map (fun x => smul x (ssub sone m)) g in
  let buf2 := zip_with sadd (map (fun x => smul x m) buf) g1 in
  (fold_left (save m) l (ps, st)).1 !! i = Some (with_grad p (Some g1))
  /\ (fold_left (save m) l (ps, st)).2 !! i
     = Some (<["momentum_buffer" := buf2]> (param_state st i)).
Proof.
  intros Hnd Hin Hp Hg Hbuf g1 buf2.
  apply list_elem_of_split in Hin as (l1 & l2 & ->).
  apply NoDup_app in Hnd as (_ & Hl1 & Hnd2).
  apply NoDup_cons in Hnd2 as [Hl2 _].
  assert (Hi1 : i ∉ l1).
  { intros Hi. apply (Hl1 i Hi). left. }
  rewrite fold_left_app. cbn [fold_left].
  destruct (fold_left (save m) l1 (ps, st)) as [ps1 st1] eqn:E1.
  pose proof (fold_save_grad_other m l1 ps st i Hi1) as [Hps1 Hst1].
  rewrite E1 in Hps1, Hst1. cbn in Hps1, Hst1.
  assert (E : save m (ps1, st1) i
              = (<[i := with_grad p (Some g1)]> ps1,
                 <[i := <["momentum_buffer" := buf2]> (param_state st i)]> st1)).
  { unfold Client.ClientWithMomentum.save_grad_param.
    cbv zeta. rewrite Hps1, Hp, Hg, (param_state_lookup st st1 i Hst1), Hbuf. done. }
  rewrite E.
  destruct (fold_save_grad_other m l2 (<[i := with_grad p (Some g1)]> ps1)
              (<[i := <["momentum_buffer" := buf2]> (param_state st i)]> st1) i Hl2)
    as [-> ->].
  split; [|by rewrite lookup_insert_eq].
  apply list_lookup_insert_eq. apply (lookup_lt_Some _ _ p). by rewrite Hps1.
Qed.

Lemma save_grad_first (c : MomentumClient A) (i : nat) p g :
  NoDup (optimizer_params (base c)) -> i ∈ optimizer_params (base c) ->
  parameters (base c) !! i = Some p -> grad p = Some g ->
  momentum_buffer c i = None ->
  let c' := Client.ClientWithMomentum._save_grad c in
  parameters (base c') !! i = Some p /\ momentum_buffer c' i = Some g.
Proof.
  intros Hnd Hin Hp Hg Hbuf.
  destruct (fold_save_grad_first (momentum c) _ _ _ i p g Hnd Hin Hp Hg Hbuf)
    as [H1 H2].
  unfold Client.ClientWithMomentum._save_grad, momentum_buffer; cbn.
  split; [exact H1|].
  unfold param_state at 1. rewrite H2. cbn. apply lookup_insert_eq.
Qed.

Lemma save_grad_later (c : MomentumClient A) (i : nat) p g buf :
  NoDup (optimizer_params (base c)) -> i ∈ optimizer_params (base c) ->
  parameters (base c) !! i = Some p -> grad p = Some g ->
  momentum_buffer c i = Some buf ->
  let m := momentum c in
  let g1 := map (fun x => smul x (ssub sone m)) g in
  let c' := Client.ClientWithMomentum._save_grad c in
  parameters (base c') !! i = Some (with_grad p (Some g1))
  /\ momentum_buffer c' i = Some (zip_with sadd (map (fun x => smul x m) buf) g1).
Proof.
  intros Hnd Hin Hp Hg Hbuf.
  destruct (fold_save_grad_later (momentum c) _ _ _ i p g buf Hnd Hin Hp Hg Hbuf)
    as [H1 H2].
  unfold Client.ClientWithMomentum._save_grad, momentum_buffer; cbn.
  split; [exact H1|].
  unfold param_state at 1. rewrite H2. cbn. apply lookup_insert_eq.
Qed.

End MomentumFacts.

Section MomentumOverQ.
Import Torch.

Lemma tensor_eq_refl (g : tensor Q) : tensor_eq g g.
Proof. unfold tensor_eq. induction g; constructor; [reflexivity|assumption]. Qed.

Lemma blend_keeps_constant (m : Q) (b g : tensor Q) :
  tensor_eq b g ->
  tensor_eq (zip_with Qplus (map (fun x => x * m) b)
                            (map (fun x => x * (1 - m)) g)) g.
Proof.
  unfold tensor_eq. induction 1 as [|x y b g Hxy _ IH]; cbn.
  - constructor.
  - constructor; [|exact IH]. rewrite Hxy. ring.
Qed.

Lemma rescaled_differs (m : Q) (g : tensor Q) :
  ~ m == 0 -> Exists (fun x => ~ x == 0) g ->
  ~ tensor_eq (map (fun x => x * (1 - m)) g) g.
Proof.
  intros Hm Hex Heq. unfold tensor_eq in Heq.
  induction Hex as [x g Hx|x g _ IH]; cbn in Heq;
    apply Forall2_cons in Heq as [Hhd Htl]; [|by apply IH].
  assert (Hz : x * m == 0).
  { transitivity (x - x * (1 - m)); [ring|rewrite Hhd; ring]. }
  apply Qmult_integral in Hz as [Hz|Hz]; [by apply Hx|by apply Hm].
Qed.

Lemma zero_or_nonzero_entry (g : tensor Q) :
  Forall (fun x => x == 0) g \/ Exists (fun x => ~ x == 0) g.
Proof.
  induction g as [|x g [IH|IH]].
  - left. constructor.
  - destruct (Qeq_dec x 0) as [Hx|Hx].
    + left. by constructor.
    + right. by constructor.
  - right. by constructor 2.
Qed.

Lemma rescaled_same (m : Q) (g : tensor Q) :
  m == 0 \/ Forall (fun x => x == 0) g ->
  tensor_eq (map (fun x => x * (1 - m)) g) g.
Proof.
  unfold tensor_eq. intros [Hm|Hz].
  - induction g as [|x g IH]; cbn; constructor; [rewrite Hm; ring|exact IH].
  - induction Hz as [|x g Hx _ IH]; cbn; constructor; [rewrite Hx; ring|exact IH].
Qed.

(** A training step of the momentum client, seen from one parameter. *)
Lemma compute_gradient_first (c : MomentumClient Q) gs (i : nat) g :
  NoDup (optimizer_params (base c)) -> i ∈ optimizer_params (base c) ->
  is_Some (parameters (base c) !! i) ->
  gs !! i = Some (Some g) ->
  momentum_buffer c i = None ->
  let c' := Client.ClientWithMomentum.compute_gradient gs c in
  is_Some (parameters (base c') !! i) /\ momentum_buffer c' i = Some g.
Proof.
  intros Hnd Hin [p Hp] Hgs Hbuf c'.
  assert (Hp1 : parameters (backward gs (base c)) !! i = Some (with_grad p (Some g))).
  { cbn. rewrite list_lookup_imap, Hp, Hgs. done. }
  destruct (save_grad_first
              {| base := backward gs (base c); momentum := momentum c |}
              i (with_grad p (Some g)) g Hnd Hin Hp1 eq_refl Hbuf) as [H1 H2].
  split; [by eexists|exact H2].
Qed.

Lemma compute_gradient_later (c : MomentumClient Q) gs (i : nat) g buf :
  NoDup (optimizer_params (base c)) -> i ∈ optimizer_params (base c) ->
  is_Some (parameters (base c) !! i) ->
  gs !! i = Some (Some g) ->
  momentum_buffer c i = Some buf ->
  let c' := Client.ClientWithMomentum.compute_gradient gs c in
  is_Some (parameters (base c') !! i)
  /\ momentum_buffer c' i
     = Some (zip_with Qplus (map (fun x => x * momentum c) buf)
                            (map (fun x => x * (1 - momentum c)) g)).
Proof.
  intros Hnd Hin [p Hp] Hgs Hbuf c'.
  assert (Hp1 : parameters (backward gs (base c)) !! i = Some (with_grad p (Some g))).
  { cbn. rewrite list_lookup_imap, Hp, Hgs. done. }
  destruct (save_grad_later
              {| base := backward gs (base c); momentum := momentum c |}
              i (with_grad p (Some g)) g buf Hnd Hin Hp1 eq_refl Hbuf) as [H1 H2].
  split; [by eexists|exact H2].
Qed.

Lemma constant_gradient_steps (c : MomentumClient Q) gs (i : nat) g :
  NoDup (optimizer_params (base c)) -> i ∈ optimizer_params (base c) ->
  is_Some (parameters (base c) !! i) ->
  gs !! i = Some (Some g) ->
  momentum_buffer c i = None ->
  forall k,
    let c' := Nat.iter (S k) (Client.ClientWithMomentum.compute_gradient gs) c in
    optimizer_params (base c') = optimizer_params (base c)
    /\ momentum c' = momentum c
    /\ is_Some (parameters (base c') !! i)
    /\ exists b, momentum_buffer c' i = Some b /\ tensor_eq b g.
Proof.
  intros Hnd Hin Hp Hgs Hbuf k. induction k as [|k IH].
  - destruct (compute_gradient_first c gs i g) as [H1 H2]; try done.
    cbn [Nat.iter]. repeat split; try done.
    exists g. split; [exact H2|apply tensor_eq_refl].
  - cbv zeta in IH. destruct IH as (Hop & Hm & Hp' & b & Hb & Hbg).
    change (Nat.iter (S (S k)) (Client.ClientWithMomentum.compute_gradient gs) c)
      with (Client.ClientWithMomentum.compute_gradient gs
              (Nat.iter (S k) (Client.ClientWithMomentum.compute_gradient gs) c)).
    set (ck := Nat.iter (S k) (Client.ClientWithMomentum.compute_gradient gs) c) in *.
    destruct (compute_gradient_later ck gs i g b) as [H1 H2]; try done.
    { by rewrite Hop. } { by rewrite Hop. }
    cbv zeta. repeat split; try done.
    eexists. split; [exact H2|]. rewrite Hm. by apply blend_keeps_constant.
Qed.

End MomentumOverQ.

(** C8, as amended.  When the buffer of a parameter already exists,
    the momentum [_save_grad] replaces the parameter's own gradient [g]
    by [g * (1 - m)] (and blends that into the buffer).  Over the
    rationals the gradient left in the parameter differs from the one
    that was computed exactly when [m] is not [0] and [g] has a non-zero
    entry; with [m = 0] or a zero gradient it is the computed one. *)
Theorem momentum_save_rescales_live_gradient :
  (forall (A : Type) (HA : Torch.Scalar A) (c : Torch.MomentumClient A)
          (i : nat) (p : Torch.Param A) (g buf : Torch.tensor A),
      NoDup (Torch.optimizer_params (Torch.base c)) ->
      i ∈ Torch.optimizer_params (Torch.base c) ->
      Torch.parameters (Torch.base c) !! i = Some p ->
      Torch.grad p = Some g ->
      Torch.momentum_buffer c i = Some buf ->
      let m := Torch.momentum c in
      let g1 := map (fun x => Torch.smul x (Torch.ssub Torch.sone m)) g in
      let c' := Client.ClientWithMomentum._save_grad c in
      Torch.parameters (Torch.base c') !! i = Some (Torch.with_grad p (Some g1))
      /\ Torch.momentum_buffer c' i
         = Some (zip_with Torch.sadd (map (fun x => Torch.smul x m) buf) g1))
  /\ (forall (c : Torch.MomentumClient Q) (i : nat) (p : Torch.Param Q)
             (g buf : Torch.tensor Q),
      NoDup (Torch.optimizer_params (Torch.base c)) ->
      i ∈ Torch.optimizer_params (Torch.base c) ->
      Torch.parameters (Torch.base c) !! i = Some p ->
      Torch.grad p = Some g ->
      Torch.momentum_buffer c i = Some buf ->
      exists p' g',
        Torch.parameters (Torch.base (Client.ClientWithMomentum._save_grad c)) !! i
        = Some p'
        /\ Torch.grad p' = Some g'
        /\ (~ Torch.tensor_eq g' g
            <-> ~ Torch.momentum c == 0 /\ Exists (fun x => ~ x == 0) g)).
Proof.
  split.
  - intros A HA c i p g buf Hnd Hin Hp Hg Hbuf.
    exact (save_grad_later c i p g buf Hnd Hin Hp Hg Hbuf).
  - intros c i p g buf Hnd Hin Hp Hg Hbuf.
    destruct (save_grad_later c i p g buf Hnd Hin Hp Hg Hbuf) as [H1 _].
    eexists _, _. split; [exact H1|]. split; [reflexivity|].
    split.
    + intros Hne. split.
      * intros Hm. apply Hne. apply rescaled_same. by left.
      * destruct (zero_or_nonzero_entry g) as [Hz|Hex]; [|exact Hex].
        exfalso. apply Hne. apply rescaled_same. by right.
    + intros [Hm Hex]. by apply rescaled_differs.
Qed.

Lemma momentum_save_rescales_live_gradient_witness :
  Torch.parameters
    (Torch.base (Client.ClientWithMomentum._save_grad Examples.warm_momentum_client))
    !! 0%nat
  = Some {| Torch.data := [0]; Torch.grad := Some [1 * (1 - (1 # 2))];
            Torch.requires_grad := true |}
  /\ Torch.momentum_buffer
       (Client.ClientWithMomentum._save_grad Examples.warm_momentum_client) 0
     = Some [1 * (1 # 2) + 1 * (1 - (1 # 2))].
Proof.
  apply (proj1 momentum_save_rescales_live_gradient Q Torch.Q_scalar
           Examples.warm_momentum_client 0%nat
           {| Torch.data := [0]; Torch.grad := Some [1]; Torch.requires_grad := true |}
           [1] [1]).
  - vm_compute. apply NoDup_singleton.
  - vm_compute. left.
  - reflexivity.
  - reflexivity.
  - reflexivity.
Defined.

(** C8, the claim as stated.  With the momentum factor [0] a save on
    a client whose buffer exists leaves the gradient [[5]] computed for
    the step in the parameter. *)
Lemma momentum_save_keeps_gradient_without_momentum :
  Torch.momentum_buffer Examples.zero_momentum_client 0 = Some [5]
  /\ Torch.grad <$> Torch.parameters (Torch.base Examples.zero_momentum_client) !! 0%nat
     = Some (Some [5])
  /\ Torch.grad
       <$> Torch.parameters
             (Torch.base (Client.ClientWithMomentum._save_grad
                            Examples.zero_momentum_client)) !! 0%nat
     = Some (Some [5]).
Proof. repeat split; vm_compute; reflexivity. Qed.

(** C5, as amended.  In the momentum variant the buffer of a parameter
    is created as a copy of the first gradient saved for it, and every
    later save sets it to [buffer * m + grad * (1 - m)].  When the same
    gradient [g] is supplied at every step the buffer holds [g] after
    every number [k >= 1] of steps (in exact arithmetic), not
    [g * (1 - (1 - m)^k)]. *)
Theorem momentum_buffer_constant_gradient
    (c : Torch.MomentumClient Q) (gs : list (option (Torch.tensor Q)))
    (i : nat) (g : Torch.tensor Q) :
  NoDup (Torch.optimizer_params (Torch.base c)) ->
  i ∈ Torch.optimizer_params (Torch.base c) ->
  is_Some (Torch.parameters (Torch.base c) !! i) ->
  gs !! i = Some (Some g) ->
  Torch.momentum_buffer c i = None ->
  Torch.momentum_buffer (Client.ClientWithMomentum.compute_gradient gs c) i = Some g
  /\ (forall k, exists b,
        Torch.momentum_buffer
          (Nat.iter (S k) (Client.ClientWithMomentum.compute_gradient gs) c) i = Some b
        /\ Torch.tensor_eq b g)
  /\ (forall (c' : Torch.MomentumClient Q) gs' g' buf,
        NoDup (Torch.optimizer_params (Torch.base c')) ->
        i ∈ Torch.optimizer_params (Torch.base c') ->
        is_Some (Torch.parameters (Torch.base c') !! i) ->
        gs' !! i = Some (Some g') ->
        Torch.momentum_buffer c' i = Some buf ->
        Torch.momentum_buffer (Client.ClientWithMomentum.compute_gradient gs' c') i
        = Some (zip_with Qplus (map (fun x => x * Torch.momentum c') buf)
                               (map (fun x => x * (1 - Torch.momentum c')) g'))).
Proof.
  intros Hnd Hin Hp Hgs Hbuf. split; [|split].
  - exact (proj2 (compute_gradient_first c gs i g Hnd Hin Hp Hgs Hbuf)).
  - intros k.
    destruct (constant_gradient_steps c gs i g Hnd Hin Hp Hgs Hbuf k)
      as (_ & _ & _ & Hb).
    exact Hb.
  - intros c' gs' g' buf Hnd' Hin' Hp' Hgs' Hbuf'.
    exact (proj2 (compute_gradient_later c' gs' i g' buf Hnd' Hin' Hp' Hgs' Hbuf')).
Qed.

Lemma momentum_buffer_constant_gradient_witness :
  Torch.momentum_buffer
    (Client.ClientWithMomentum.compute_gradient [Some [1]] Examples.half_momentum_client)
    0 = Some [1]
  /\ (forall k, exists b,
        Torch.momentum_buffer
          (Nat.iter (S k) (Client.ClientWithMomentum.compute_gradient [Some [1]])
                    Examples.half_momentum_client) 0 = Some b
        /\ Torch.tensor_eq b [1]).
Proof.
  destruct (momentum_buffer_constant_gradient Examples.half_momentum_client
              [Some [1]] 0%nat [1]) as (H1 & H2 & _).
  - vm_compute. apply NoDup_singleton.
  - vm_compute. left.
  - vm_compute. eexists. reflexivity.
  - reflexivity.
  - reflexivity.
  - split; [exact H1|exact H2].
Defined.

(** C5, as stated, fails: with [m = 1/2] and the constant gradient [[1]]
    the buffer after one step is [[1]], while [g * (1 - (1 - m)^1)] is
    [[1/2]]. *)
Lemma momentum_buffer_not_closed_form :
  ~ (forall (c : Torch.MomentumClient Q) gs (i : nat) g k,
       NoDup (Torch.optimizer_params (Torch.base c)) ->
       i ∈ Torch.optimizer_params (Torch.base c) ->
       is_Some (Torch.parameters (Torch.base c) !! i) ->
       gs !! i = Some (Some g) ->
       Torch.momentum_buffer c i = None ->
       exists b,
         Torch.momentum_buffer
           (Nat.iter (S k) (Client.ClientWithMomentum.compute_gradient gs) c) i = Some b
         /\ Torch.tensor_eq b (Examples.closed_form_buffer (Torch.momentum c) g (S k))).
Proof.
  intros Hall.
  destruct (Hall Examples.half_momentum_client [Some [1]] 0%nat [1] 0%nat)
    as (b & Hb & Heq).
  - vm_compute. apply NoDup_singleton.
  - vm_compute. left.
  - vm_compute. eexists. reflexivity.
  - reflexivity.
  - reflexivity.
  - vm_compute in Hb. injection Hb as <-.
    apply Forall2_cons in Heq as [Hhd _]. vm_compute in Hhd. discriminate.
Qed.

(** * Further properties of the aggregator *)

(** ** The threshold search *)

Lemma map_at_index_seq (d : list Q) : forall s m,
  (s + m <= length d)%nat ->
  map (at_index d) (seq s m) = firstn m (skipn s d).
Proof.
  intros s m. revert s. induction m as [|m IH]; intros s Hle; [reflexivity|].
  cbn [seq map]. rewrite IH by lia.
  destruct (skipn s d) as [|x r] eqn:E.
  - exfalso. assert (Hl : length (skipn s d) = 0%nat) by (rewrite E; reflexivity).
    rewrite length_skipn in Hl. lia.
  - cbn [firstn]. f_equal.
    + unfold at_index. rewrite <- (firstn_skipn s d) at 1.
      rewrite app_nth2 by (rewrite length_firstn; lia).
      rewrite length_firstn. replace (s - Nat.min s (length d))%nat with 0%nat by lia.
      rewrite E. reflexivity.
    + f_equal. replace (S s) with (1 + s)%nat by lia.
      rewrite <- skipn_skipn. rewrite E. reflexivity.
Qed.

Lemma eta_at_input_order (distance : list Q) (lamb : Q) (p : nat) :
  eta_at distance (idxs distance) lamb p
  = (pysum (firstn (p + 1) distance) + lamb) / Qnat (p + 1).
Proof.
  unfold eta_at. rewrite idxs_original_order. do 2 f_equal. f_equal.
  rewrite take_seq.
  rewrite map_at_index_seq by lia. rewrite drop_0.
  destruct (Nat.min_spec (p + 1) (length distance)) as [[_ ->]|[Hle ->]];
    [reflexivity|].
  rewrite !firstn_all2 by lia. reflexivity.
Qed.

Lemma eta_scan_result distance order lamb : forall ps cur,
  eta_scan distance order lamb ps cur = cur
  \/ exists p, In p ps
       /\ eta_scan distance order lamb ps cur = eta_at distance order lamb p.
Proof.
  induction ps as [|p ps IH]; intros cur; cbn [eta_scan]; [by left|].
  destruct (_ && _); [by left|].
  destruct (IH (eta_at distance order lamb p)) as [->|(q & Hq & ->)].
  - right. exists p. split; [by left|reflexivity].
  - right. exists q. split; [by right|reflexivity].
Qed.

(** X1.  The sentinel [1e16] only survives the threshold search of an
    empty round.  With at least one participant and [lamb >= 0] the
    first position is always accepted, and the threshold is the average
    [(d_0 + ... + d_k + lamb) / (k + 1)] of a prefix of the distances in
    input order. *)
Theorem eta_optimal_prefix_average (distance : list Q) (lamb : Q) :
  distance <> [] -> 0 <= lamb ->
  exists k, (k < length distance)%nat
    /\ eta_optimal distance lamb
       = (pysum (firstn (k + 1) distance) + lamb) / Qnat (k + 1).
Proof.
  intros Hne Hlamb.
  destruct distance as [|d0 ds]; [done|].
  unfold eta_optimal, threshold.
  assert (Hlen : length (idxs (d0 :: ds)) = S (length ds)).
  { rewrite idxs_original_order. by rewrite length_seq. }
  rewrite Hlen. cbn [seq eta_scan].
  assert (Hfirst : Qltb (eta_at (d0 :: ds) (idxs (d0 :: ds)) lamb 0
                         - at_index (d0 :: ds) (nth 0 (idxs (d0 :: ds)) 0%nat)) 0 = false).
  { apply Qltb_ge. rewrite eta_at_input_order, idxs_original_order.
    cbn [length seq nth at_index firstn Nat.add]. unfold pysum. cbn [fold_left].
    change (Qnat 1) with 1.
    assert (E : (0 + d0 + lamb) / 1 - d0 == lamb) by field.
    rewrite E. exact Hlamb. }
  rewrite Hfirst, andb_false_r.
  destruct (eta_scan_result (d0 :: ds) (idxs (d0 :: ds)) lamb
              (seq 1 (length ds)) (eta_at (d0 :: ds) (idxs (d0 :: ds)) lamb 0))
    as [->|(p & Hp & ->)].
  - exists 0%nat. split; [cbn; lia|apply eta_at_input_order].
  - exists p. apply in_seq in Hp. split; [cbn; lia|apply eta_at_input_order].
Qed.

(** ** The weights of one pass *)

Lemma pymax_zero_nonneg (x : Q) : 0 <= pymax x 0.
Proof.
  unfold pymax. destruct (Qltb x 0) eqn:E; [lra|].
  by apply Qltb_ge in E.
Qed.

Lemma pymax_zero_cases (x : Q) :
  (x <= 0 -> pymax x 0 == 0) /\ (0 <= x -> pymax x 0 == x).
Proof.
  unfold pymax. destruct (Qltb x 0) eqn:E.
  - apply Qltb_lt in E. split; intros; lra.
  - apply Qltb_ge in E. split; intros; lra.
Qed.

Lemma update_alpha_nonneg (distance : list Q) (lamb : Q) :
  0 < lamb -> Forall (fun a => 0 <= a) (update_alpha distance lamb).
Proof.
  intros Hlamb. unfold update_alpha, weights_of.
  generalize (eta_optimal distance lamb). intros eta.
  induction distance as [|d ds IH]; cbn [map]; constructor; [|exact IH].
  apply Qle_shift_div_l; [exact Hlamb|].
  pose proof (pymax_zero_nonneg (eta - d)). lra.
Qed.


Section AutogmMore.

Context {V client : Type}.
Variable get_update : client -> res V.
Variable _compute_euclidean_distance : V -> V -> Q.
Variable gm_agg : list V -> list Q -> res V.
Variable zeros_like : V -> V.

Local Abbreviation dist := _compute_euclidean_distance.
Local Abbreviation call' :=
  (__call__ get_update _compute_euclidean_distance gm_agg zeros_like).

(** ** Calls that raise *)

Lemma mapM_res_first_failure {A B} (f : A -> res B) (l1 l2 : list A) (x : A) e :
  Forall (fun a => exists b, f a = Ok b) l1 -> f x = Raise e ->
  mapM f (l1 ++ x :: l2) = Raise e.
Proof.
  intros Hl1 Hx. induction Hl1 as [|a l1 [b Hb] _ IH]; cbn.
  - by rewrite Hx.
  - rewrite Hb. cbn. cbn in IH. by rewrite IH.
Qed.

(** X6.  When the [get_update] of a client raises, the call raises the
    error of the first such client and the aggregator is left exactly as
    it was: no buffer is created and the solver is never reached. *)
Theorem failing_client_leaves_aggregator
    (self : Autogm V) (before after : list client) (c : client) (e : exn)
    (maxiter : nat) (eps ftol : Q) :
  Forall (fun a => exists u, get_update a = Ok u) before ->
  get_update c = Raise e ->
  call' self (before ++ c :: after) maxiter eps ftol = (Raise e, self).
Proof.
  intros Hbefore Hc. unfold __call__.
  by rewrite (mapM_res_first_failure get_update before after c e Hbefore Hc).
Qed.


(** ** The initial objective *)

Lemma pysum_scaled (c : Q) (xs : list Q) :
  pysum (map (fun x => c * x) xs) == c * pysum xs.
Proof.
  rewrite !pysum_fold_right.
  induction xs as [|x xs IH]; cbn [map fold_right]; [ring|]. rewrite IH. ring.
Qed.

Lemma pysum_repeat (c : Q) (n : nat) : pysum (repeat c n) == Qnat n * c.
Proof.
  rewrite pysum_fold_right. induction n as [|n IH].
  - cbn [repeat fold_right]. unfold Qnat. cbn. ring.
  - cbn [repeat fold_right]. rewrite IH. unfold Qnat.
    rewrite Nat2Z.inj_succ, <- Z.add_1_r, inject_Z_plus. ring.
Qed.

Lemma Qnat_pos (n : nat) : n <> 0%nat -> 0 < Qnat n.
Proof.
  intros Hn. unfold Qnat. change 0 with (inject_Z 0).
  rewrite <- Zlt_Qlt. lia.
Qed.

Lemma objective_terms_uniform (median : V) (updates : list V) (c : Q) :
  geometric_median_objective dist median updates
    (map (fun o => o / c) (repeat 1 (length updates)))
  == pysum (map (dist median) updates) / c.
Proof.
  unfold geometric_median_objective. rewrite !pysum_fold_right.
  induction updates as [|u us IH]; cbn [length repeat map combine fold_right fst snd].
  - unfold Qdiv. ring.
  - rewrite IH. unfold Qdiv. ring.
Qed.

(** X4.  The first weights are uniform, [1/N] each, and the objective
    computed before the loop is the mean distance of the updates to the
    first median plus [1/2]. *)
Theorem initial_objective_mean_distance (updates : list V) (st : loop_state V) :
  updates <> [] ->
  init_state dist gm_agg updates = Ok st ->
  ls_alpha st = repeat (1 / Qnat (length updates)) (length updates)
  /\ pysum (ls_alpha st) == 1
  /\ ls_global_obj st
     == pysum (map (dist (ls_median st)) updates) / Qnat (length updates) + (1 # 2).
Proof.
  intros Hne. unfold init_state.
  destruct (gm_agg updates _) as [z|e]; cbn; [|discriminate].
  intros [= <-]. cbn [ls_alpha ls_median ls_global_obj].
  assert (Hn : 0 < Qnat (length updates)).
  { apply Qnat_pos. by destruct updates. }
  assert (Halpha : map (fun o => o / Qnat (length updates)) (repeat 1 (length updates))
                   = repeat (1 / Qnat (length updates)) (length updates)).
  { rewrite map_repeat. reflexivity. }
  split; [exact Halpha|]. split.
  - rewrite Halpha, pysum_repeat. field. lra.
  - rewrite objective_terms_uniform. unfold norm_sq. rewrite Halpha.
    assert (Hsq : map (fun a => a * a) (repeat (1 / Qnat (length updates)) (length updates))
                  = repeat (1 / Qnat (length updates) * (1 / Qnat (length updates)))
                           (length updates)).
    { rewrite map_repeat. reflexivity. }
    rewrite Hsq, pysum_repeat, lamb_of_length. field. lra.
Qed.

(** ** A tolerance that switches the stopping test off *)

Lemma pysum_nonneg (xs : list Q) : Forall (fun x => 0 <= x) xs -> 0 <= pysum xs.
Proof.
  rewrite pysum_fold_right. induction 1 as [|x xs Hx _ IH]; cbn [fold_right]; lra.
Qed.

Lemma objective_terms_nonneg (median : V) (alphas : list Q) : forall points,
  (forall u v, 0 <= dist u v) ->
  Forall (fun a => 0 <= a) alphas ->
  0 <= geometric_median_objective dist median points alphas.
Proof.
  intros points Hdist Halpha. unfold geometric_median_objective.
  apply pysum_nonneg. revert points.
  induction Halpha as [|a alphas Ha _ IH]; intros [|p points];
    cbn [combine map]; constructor; auto.
  cbn [fst snd]. apply Qmult_le_0_compat; [exact Ha|apply Hdist].
Qed.

Lemma norm_sq_nonneg (alpha : list Q) : 0 <= norm_sq alpha.
Proof.
  unfold norm_sq. apply pysum_nonneg.
  induction alpha as [|a alpha IH]; cbn [map]; constructor; [|exact IH]. nra.
Qed.

Lemma body_objective_nonneg (updates : list V) (st st' : loop_state V) :
  (forall u v, 0 <= dist u v) ->
  updates <> [] ->
  body dist gm_agg updates st = Ok st' ->
  0 <= ls_global_obj st'.
Proof.
  intros Hdist Hne. unfold body.
  destruct (gm_agg updates _) as [z|e]; cbn; [|discriminate].
  intros [= <-]. cbn [ls_global_obj].
  assert (Hlamb : 0 < lamb_of updates).
  { rewrite lamb_of_length. apply Qnat_pos. by destruct updates. }
  match goal with
  | |- context [update_alpha ?d ?l] =>
      pose proof (update_alpha_nonneg d l Hlamb) as Halpha;
      pose proof (objective_terms_nonneg z (update_alpha d l) updates Hdist Halpha);
      pose proof (norm_sq_nonneg (update_alpha d l))
  end.
  apply Qle_trans with (0 + 0); [lra|].
  apply Qplus_le_compat; [assumption|].
  apply Qle_shift_div_l; [lra|]. nra.
Qed.

Lemma iterates_raise (updates : list V) (j : nat) (e : exn) :
  iterates dist gm_agg updates j = Raise e ->
  forall n, iterates dist gm_agg updates (j + n) = Raise e.
Proof.
  intros Hj n. induction n as [|n IH]; [by rewrite Nat.add_0_r|].
  replace (j + S n)%nat with (S (j + n)) by lia. cbn. by rewrite IH.
Qed.

Lemma outer_loop_never_stops (updates : list V) (ftol : Q) :
  (forall st st', body dist gm_agg updates st = Ok st' ->
     converged ftol (ls_global_obj st) (ls_global_obj st') = false) ->
  forall n j st0,
    iterates dist gm_agg updates j = Ok st0 ->
    outer_loop dist gm_agg n ftol updates st0 = iterates dist gm_agg updates (j + n).
Proof.
  intros Hno. induction n as [|n IH]; intros j st0 H0.
  - by rewrite Nat.add_0_r, H0.
  - replace (j + S n)%nat with (S j + n)%nat by lia.
    cbn [outer_loop].
    destruct (body dist gm_agg updates st0) as [st1|e] eqn:Hb; cbn.
    + rewrite (Hno st0 st1 Hb). refine (IH (S j) st1 _). cbn. by rewrite H0.
    + symmetry. refine (iterates_raise updates (S j) e _ n). cbn. by rewrite H0.
Qed.

(** X5.  With distances that are never negative, at least one update
    and a tolerance [ftol <= 0], the stopping test never fires: the loop
    makes exactly [maxiter] passes and the call returns the median of the
    last one (or raises what the solver raised on the way). *)
Theorem nonpositive_ftol_runs_all_passes
    (self : Autogm V) (clients : list client) (updates : list V)
    (maxiter : nat) (eps ftol : Q) :
  (forall u v, 0 <= dist u v) ->
  mapM get_update clients = Ok updates ->
  updates <> [] ->
  ftol <= 0 ->
  fst (call' self clients maxiter eps ftol)
  = match iterates dist gm_agg updates maxiter with
    | Ok st => Ok (ls_median st)
    | Raise e => Raise e
    end.
Proof.
  intros Hdist Hupd Hne Hftol.
  assert (Hno : forall st st', body dist gm_agg updates st = Ok st' ->
            converged ftol (ls_global_obj st) (ls_global_obj st') = false).
  { intros st st' Hb. apply Qltb_ge.
    pose proof (body_objective_nonneg updates st st' Hdist Hne Hb) as Hobj.
    pose proof (Qabs_nonneg (ls_global_obj st - ls_global_obj st')) as Habs.
    apply Qle_trans with 0; [|exact Habs]. nra. }
  unfold __call__. rewrite Hupd.
  assert (Hm : exists self1, init_momentum zeros_like self updates = Ok self1).
  { unfold init_momentum. destruct (momentum self); [eauto|].
    destruct updates; [done|eauto]. }
  destruct Hm as [self1 ->].
  destruct (init_state dist gm_agg updates) as [st0|e] eqn:H0.
  - pose proof (outer_loop_never_stops updates ftol Hno maxiter 0%nat st0 H0) as Hl.
    cbn [Nat.add] in Hl. cbn. rewrite Hl.
    by destruct (iterates dist gm_agg updates maxiter).
  - pose proof (iterates_raise updates 0%nat e H0 maxiter) as Hr.
    cbn [Nat.add] in Hr. rewrite Hr. reflexivity.
Qed.

End AutogmMore.

(** ** Ascending distances: the weights are a water-filling *)

Lemma nth_idxs (distance : list Q) (p : nat) :
  (p < length distance)%nat -> nth p (idxs distance) 0%nat = p.
Proof.
  intros Hp. rewrite idxs_original_order. by rewrite seq_nth.
Qed.

(** The scan over the positions [p0, p0+1, ...] accepts a run of
    positions and stops at the first refused one. *)
Lemma eta_scan_run (distance : list Q) (lamb : Q) : forall m p0 cur,
  (p0 + m = length distance)%nat ->
  exists r,
    (p0 <= r <= length distance)%nat
    /\ eta_scan distance (idxs distance) lamb (seq p0 m) cur
       = (if decide (r = p0) then cur else eta_in distance lamb (r - 1))
    /\ (forall p, (p0 <= p < r)%nat ->
          0 <= eta_in distance lamb p - at_index distance p)
    /\ ((r < length distance)%nat ->
          eta_in distance lamb r - at_index distance r < 0).
Proof.
  induction m as [|m IH]; intros p0 cur Hlen.
  - exists p0. cbn [seq eta_scan]. rewrite decide_True by done.
    repeat split; try lia.
  - cbn [seq eta_scan].
    assert (Hp0 : (p0 < length distance)%nat) by lia.
    assert (Hl : length (idxs distance) = length distance).
    { rewrite idxs_original_order. apply length_seq. }
    rewrite Hl, (proj2 (Nat.ltb_lt _ _) Hp0), andb_true_l.
    rewrite (nth_idxs distance p0 Hp0), eta_at_input_order.
    fold (eta_in distance lamb p0).
    destruct (Qltb (eta_in distance lamb p0 - at_index distance p0) 0) eqn:E.
    + exists p0. rewrite decide_True by done. apply Qltb_lt in E.
      repeat split; try lia. intros _. exact E.
    + apply Qltb_ge in E.
      destruct (IH (S p0) (eta_in distance lamb p0)) as (r & Hr & Hres & Hacc & Hstop);
        [lia|].
      exists r. rewrite decide_False by lia. split; [lia|]. split.
      * rewrite Hres. destruct (decide (r = S p0)) as [->|_]; [|reflexivity].
        by replace (S p0 - 1)%nat with p0 by lia.
      * split; [|exact Hstop]. intros p Hp.
        destruct (decide (p = p0)) as [->|Hne]; [exact E|]. apply Hacc. lia.
Qed.

Lemma sorted_lookup_le (d : list Q) :
  StronglySorted Qle d ->
  forall i j x y, (i <= j)%nat -> d !! i = Some x -> d !! j = Some y -> x <= y.
Proof.
  induction 1 as [|a d _ IH Ha]; intros i j x y Hij Hi Hj; [done|].
  destruct i as [|i], j as [|j]; cbn in Hi, Hj; try lia.
  - injection Hi as <-. injection Hj as <-. lra.
  - injection Hi as <-. rewrite List.Forall_forall in Ha.
    apply Ha. by eapply list_elem_of_In, list_elem_of_lookup_2.
  - apply (IH i j); [lia|done|done].
Qed.

Lemma pysum_app (xs ys : list Q) : pysum (xs ++ ys) == pysum xs + pysum ys.
Proof.
  rewrite !pysum_fold_right.
  induction xs as [|x xs IH]; cbn [app fold_right]; [ring|]. rewrite IH. ring.
Qed.

Lemma pysum_map_ext (f g : Q -> Q) (xs : list Q) :
  Forall (fun x => f x == g x) xs -> pysum (map f xs) == pysum (map g xs).
Proof.
  rewrite !pysum_fold_right.
  induction 1 as [|x xs Hx _ IH]; cbn [map fold_right]; [reflexivity|].
  by rewrite Hx, IH.
Qed.

Lemma pysum_const_minus (eta : Q) (xs : list Q) :
  pysum (map (fun x => eta - x) xs) == Qnat (length xs) * eta - pysum xs.
Proof.
  rewrite !pysum_fold_right.
  induction xs as [|x xs IH]; cbn [map fold_right length].
  - unfold Qnat. cbn. ring.
  - rewrite IH. unfold Qnat.
    rewrite Nat2Z.inj_succ, <- Z.add_1_r, inject_Z_plus. ring.
Qed.

Lemma pysum_zero (xs : list Q) : pysum (map (fun _ => 0) xs) == 0.
Proof.
  rewrite pysum_fold_right.
  induction xs as [|x xs IH]; cbn [map fold_right]; [reflexivity|]. rewrite IH. ring.
Qed.

(** Below the threshold the slack is kept, above it the weight is cut. *)
Lemma slack_sum (eta : Q) (low high : list Q) :
  Forall (fun x => x <= eta) low ->
  Forall (fun x => eta <= x) high ->
  pysum (map (fun x => pymax (eta - x) 0) (low ++ high))
  == Qnat (length low) * eta - pysum low.
Proof.
  intros Hlow Hhigh. rewrite map_app, pysum_app.
  rewrite (pysum_map_ext (fun x => pymax (eta - x) 0) (fun x => eta - x) low).
  - rewrite (pysum_map_ext (fun x => pymax (eta - x) 0) (fun _ => 0) high).
    + rewrite pysum_const_minus, pysum_zero. ring.
    + eapply Forall_impl; [exact Hhigh|]. intros x Hx. cbn beta in *.
      apply (proj1 (pymax_zero_cases (eta - x))). lra.
  - eapply Forall_impl; [exact Hlow|]. intros x Hx. cbn beta in *.
    apply (proj2 (pymax_zero_cases (eta - x))). lra.
Qed.

Lemma pysum_take_S (d : list Q) (k : nat) (x : Q) :
  d !! k = Some x -> pysum (firstn (S k) d) == pysum (firstn k d) + x.
Proof.
  intros Hx. rewrite (take_S_r d k x Hx), pysum_app.
  assert (E : pysum [x] == x) by (unfold pysum; cbn [fold_left]; ring).
  rewrite E. reflexivity.
Qed.

Lemma pysum_scaled_div (c : Q) (f : Q -> Q) (xs : list Q) :
  pysum (map (fun x => f x / c) xs) == pysum (map f xs) / c.
Proof.
  rewrite !pysum_fold_right.
  induction xs as [|x xs IH]; cbn [map fold_right]; [unfold Qdiv; ring|].
  rewrite IH. unfold Qdiv. ring.
Qed.

Lemma Qnat_S (n : nat) : Qnat (S n) == Qnat n + 1.
Proof.
  unfold Qnat. rewrite Nat2Z.inj_succ, <- Z.add_1_r, inject_Z_plus. reflexivity.
Qed.

(** X3.  When the distances arrive in ascending order the weight update
    is the water-filling of the specification: the weights sum to [1]. *)
Theorem ascending_distances_weights_sum_to_one (distance : list Q) (lamb : Q) :
  StronglySorted Qle distance ->
  distance <> [] ->
  0 < lamb ->
  pysum (update_alpha distance lamb) == 1.
Proof.
  intros Hsorted Hne Hlamb.
  destruct (eta_scan_run distance lamb (length distance) 0%nat eta_sentinel eq_refl)
    as (r & Hr & Hres & Hacc & Hstop).
  fold (threshold (idxs distance) distance lamb) in Hres.
  assert (Hlen0 : (0 < length distance)%nat) by (destruct distance; [done|cbn; lia]).
  (* the first position is accepted *)
  assert (Hr0 : r <> 0%nat).
  { intros ->. specialize (Hstop Hlen0).
    destruct distance as [|d0 ds]; [done|].
    unfold eta_in, at_index in Hstop. cbn [Nat.add firstn nth] in Hstop.
    unfold pysum in Hstop. cbn [fold_left] in Hstop. change (Qnat 1) with 1 in Hstop.
    assert (E : (0 + d0 + lamb) / 1 - d0 == lamb) by field.
    rewrite E in Hstop. lra. }
  rewrite decide_False in Hres by done.
  assert (Hlenidx : length (idxs distance) = length distance).
  { rewrite idxs_original_order. apply length_seq. }
  assert (Heta : eta_optimal distance lamb = eta_in distance lamb (r - 1)).
  { unfold eta_optimal, threshold. rewrite Hlenidx. exact Hres. }
  set (k := (r - 1)%nat) in *.
  assert (Hk : (k < length distance)%nat) by lia.
  destruct (lookup_lt_is_Some_2 distance k Hk) as [dk Hdk].
  assert (Hkacc : dk <= eta_in distance lamb k).
  { specialize (Hacc k ltac:(lia)). unfold at_index in Hacc.
    rewrite (nth_lookup_Some _ _ _ _ Hdk) in Hacc. lra. }
  set (eta := eta_in distance lamb k) in *.
  assert (Hsum : Qnat (k + 1) * eta == pysum (firstn (k + 1) distance) + lamb).
  { unfold eta, eta_in. field.
    pose proof (Qnat_pos (k + 1) ltac:(lia)). lra. }
  unfold update_alpha, weights_of. rewrite Heta.
  fold eta.
  rewrite (pysum_scaled_div lamb (fun d => pymax (eta - d) 0)).
  assert (Hsplit : distance = firstn (k + 1) distance ++ skipn (k + 1) distance)
    by (symmetry; apply firstn_skipn).
  rewrite Hsplit at 1.
  rewrite slack_sum.
  - rewrite length_firstn, Nat.min_l by lia. rewrite Hsum. field. lra.
  - apply Forall_lookup. intros i x Hx.
    apply lookup_take_Some in Hx as [Hx Hi].
    apply Qle_trans with dk; [|exact Hkacc].
    apply (sorted_lookup_le distance Hsorted i k x dk); [lia|done|done].
  - apply Forall_lookup. intros i x Hx. rewrite lookup_drop in Hx.
    assert (Hr1 : (r < length distance)%nat).
    { apply lookup_lt_Some in Hx. lia. }
    specialize (Hstop Hr1).
    destruct (lookup_lt_is_Some_2 distance r Hr1) as [dr Hdr].
    unfold at_index in Hstop. rewrite (nth_lookup_Some _ _ _ _ Hdr) in Hstop.
    assert (Hrx : dr <= x).
    { apply (sorted_lookup_le distance Hsorted r (k + 1 + i) dr x); [lia|done|done]. }
    apply Qle_trans with dr; [|exact Hrx].
    (* eta_k <= d_r follows from the refusal at position r = k + 1 *)
    assert (Hrk : r = S k) by lia.
    unfold eta_in in Hstop. rewrite Hrk in Hstop, Hdr.
    replace (S k + 1)%nat with (S (k + 1)) in Hstop by lia.
    replace (S k) with (k + 1)%nat in Hdr by lia.
    rewrite (pysum_take_S distance (k + 1) dr Hdr), Qnat_S in Hstop.
    pose proof (Qnat_pos (k + 1) ltac:(lia)) as Hpos.
    set (total := pysum (firstn (k + 1) distance)) in *.
    set (a := Qnat (k + 1)) in *.
    assert (Hq : (total + dr + lamb) / (a + 1) < dr) by lra.
    assert (Hnum : total + dr + lamb < dr * (a + 1)).
    { apply (Qmult_lt_r _ _ (a + 1)) in Hq; [|lra].
      assert (E : (total + dr + lamb) / (a + 1) * (a + 1) == total + dr + lamb)
        by (field; lra).
      rewrite E in Hq. exact Hq. }
    unfold eta, eta_in. fold total a.
    apply Qle_shift_div_r; [exact Hpos|]. nra.
Qed.

(** * Further properties of the clients *)

Section ClientMore.
Import Torch.
Context {A : Type} `{Scalar A}.

(** ** [set_gradient] and the length of its argument *)

Lemma take_plus {B} (n m : nat) (l : list B) :
  take (n + m) l = take n l ++ take m (drop n l).
Proof.
  revert l. induction n as [|n IH]; intros [|x l]; cbn; try reflexivity.
  - by rewrite take_nil.
  - by rewrite IH.
Qed.

(** Number of entries [set_gradient] consumes. *)
Lemma set_gradient_loop_enough (ps : list (Param A)) : forall (gradient : tensor A) beg,
  Forall (fun p => is_Some (grad p)) ps ->
  (beg + length (concat (omap grad ps)) <= length gradient)%nat ->
  exists ps',
    Client.TorchClient.set_gradient_loop gradient beg ps = Ok ps'
    /\ concat (omap grad ps')
       = take (length (concat (omap grad ps))) (drop beg gradient)
    /\ map data ps' = map data ps
    /\ map requires_grad ps' = map requires_grad ps.
Proof.
  induction ps as [|p ps IH]; intros gradient beg Hall Hlen.
  - exists []. repeat split.
  - apply Forall_cons in Hall as [[g Hg] Hall].
    cbn [omap list_omap] in Hlen |- *. rewrite Hg in Hlen |- *.
    cbn [concat] in Hlen |- *. rewrite length_app in Hlen |- *.
    cbn [Client.TorchClient.set_gradient_loop]. rewrite Hg. cbv zeta.
    assert (Hx : length (slice gradient beg (beg + length g)) = length g).
    { unfold slice. rewrite length_take, length_drop. lia. }
    rewrite Hx, Nat.eqb_refl.
    destruct (IH gradient (beg + length g)%nat Hall ltac:(lia))
      as (ps' & -> & Hcat & Hdata & Hreq).
    eexists. split; [reflexivity|]. cbn [omap list_omap with_grad grad concat map data requires_grad].
    rewrite Hcat, Hdata, Hreq. repeat split.
    rewrite take_plus. f_equal.
    + unfold slice. f_equal. lia.
    + by rewrite drop_drop.
Qed.

Lemma set_gradient_loop_short (ps : list (Param A)) : forall (gradient : tensor A) beg,
  Forall (fun p => is_Some (grad p)) ps ->
  (beg <= length gradient)%nat ->
  (length gradient < beg + length (concat (omap grad ps)))%nat ->
  Client.TorchClient.set_gradient_loop gradient beg ps = Raise RuntimeError.
Proof.
  induction ps as [|p ps IH]; intros gradient beg Hall Hbeg Hlen.
  - cbn in Hlen. lia.
  - apply Forall_cons in Hall as [[g Hg] Hall].
    cbn [omap list_omap] in Hlen. rewrite Hg in Hlen.
    cbn [concat] in Hlen. rewrite length_app in Hlen.
    cbn [Client.TorchClient.set_gradient_loop]. rewrite Hg. cbv zeta.
    destruct (Nat.eqb_spec (length (slice gradient beg (beg + length g))) (length g))
      as [Heq|Hne]; [|reflexivity].
    unfold slice in Heq. rewrite length_take, length_drop in Heq.
    rewrite (IH gradient (beg + length g)%nat Hall); [reflexivity|lia|lia].
Qed.

(** X9.  On a client whose parameters all have a gradient,
    [set_gradient] succeeds exactly when its argument has at least as
    many entries as the gradients together.  It then stores the leading
    entries, in order, ignores whatever follows them, and changes nothing
    but the gradients; a shorter argument raises [RuntimeError]. *)
Theorem set_gradient_sizes (c : TorchClient A) (gradient : tensor A) :
  Forall (fun p => is_Some (grad p)) (parameters c) ->
  let total := length (concat (omap grad (parameters c))) in
  ((total <= length gradient)%nat ->
     exists c',
       Client.TorchClient.set_gradient gradient c = Ok c'
       /\ concat (omap grad (parameters c')) = take total gradient
       /\ map data (parameters c') = map data (parameters c)
       /\ map requires_grad (parameters c') = map requires_grad (parameters c)
       /\ param_groups c' = param_groups c
       /\ state c' = state c
       /\ saved_update c' = saved_update c)
  /\ ((length gradient < total)%nat ->
     Client.TorchClient.set_gradient gradient c = Raise RuntimeError).
Proof.
  intros Hall total. unfold Client.TorchClient.set_gradient. split; intros Hlen.
  - destruct (set_gradient_loop_enough (parameters c) gradient 0%nat Hall Hlen)
      as (ps' & -> & Hcat & Hdata & Hreq).
    eexists. split; [reflexivity|]. cbn. by rewrite drop_0 in Hcat.
  - by rewrite (set_gradient_loop_short (parameters c) gradient 0%nat Hall (Nat.le_0_l _) Hlen).
Qed.

(** ** [get_gradient] without a saved gradient *)

Lemma mapM_res_raise {B C} (f : B -> res C) (l : list B) (e : exn) :
  (forall x, In x l -> (exists y, f x = Ok y) \/ f x = Raise e) ->
  (exists x, In x l /\ f x = Raise e) ->
  mapM f l = Raise e.
Proof.
  induction l as [|x l IH]; intros Hall (x0 & Hin & Hx0); [done|].
  cbn. destruct (Hall x (or_introl eq_refl)) as [[y Hy]|Hx].
  - rewrite Hy. cbn.
    assert (Hl : mapM f l = Raise e).
    { apply IH; [intros z Hz; apply Hall; by right|].
      destruct Hin as [->|Hin]; [congruence|eauto]. }
    cbn in Hl. by rewrite Hl.
  - by rewrite Hx.
Qed.

Lemma saved_layer_cases (key : string) (st : gmap nat (gmap string (tensor A))) (i : nat) :
  (exists t, Client.TorchClient.saved_layer key st i = Ok t)
  \/ Client.TorchClient.saved_layer key st i = Raise KeyError.
Proof.
  unfold Client.TorchClient.saved_layer.
  destruct (param_state st i !! key); eauto.
Qed.

(** X10.  [get_gradient] raises [KeyError] as soon as one parameter of
    the optimizer has no saved gradient (plain client) or no momentum
    buffer (momentum client), for instance before the first
    [compute_gradient] or for a parameter whose [grad] was [None] when
    the gradients were saved; with an optimizer that holds no parameter
    it raises [RuntimeError]. *)
Theorem get_gradient_missing_entry (c : TorchClient A) (mc : MomentumClient A) :
  (forall i, i ∈ optimizer_params c ->
     param_state (state c) i !! "saved_grad" = None ->
     Client.TorchClient.get_gradient c = Raise KeyError)
  /\ (forall i, i ∈ optimizer_params (base mc) ->
     momentum_buffer mc i = None ->
     Client.ClientWithMomentum.get_gradient mc = Raise KeyError)
  /\ (optimizer_params c = [] ->
     Client.TorchClient.get_gradient c = Raise RuntimeError).
Proof.
  split; [|split].
  - intros i Hi Hnone.
    unfold Client.TorchClient.get_gradient, Client.TorchClient._get_saved_grad.
    rewrite (mapM_res_raise _ (optimizer_params c) KeyError); [reflexivity| |].
    + intros x _. apply saved_layer_cases.
    + exists i. split; [by apply list_elem_of_In|].
      unfold Client.TorchClient.saved_layer. by rewrite Hnone.
  - intros i Hi Hnone.
    unfold Client.ClientWithMomentum.get_gradient,
      Client.ClientWithMomentum._get_saved_grad.
    rewrite (mapM_res_raise _ (optimizer_params (base mc)) KeyError); [reflexivity| |].
    + intros x _. apply saved_layer_cases.
    + exists i. split; [by apply list_elem_of_In|].
      unfold Client.TorchClient.saved_layer. unfold momentum_buffer in Hnone.
      by rewrite Hnone.
  - intros Hempty.
    unfold Client.TorchClient.get_gradient, Client.TorchClient._get_saved_grad.
    by rewrite Hempty.
Qed.

(** ** Saving the gradients twice *)

Lemma save_grad_param_noop (ps : list (Param A))
    (st : gmap nat (gmap string (tensor A))) (i : nat) :
  (forall p g, ps !! i = Some p -> grad p = Some g ->
     param_state st i !! "saved_grad" = Some g) ->
  Client.TorchClient.save_grad_param ps st i = st.
Proof.
  intros Hsaved. unfold Client.TorchClient.save_grad_param.
  destruct (ps !! i) as [p|]; [|reflexivity].
  destruct (grad p) as [g|] eqn:Hg; [|reflexivity].
  specialize (Hsaved p g eq_refl Hg). unfold param_state in *.
  destruct (st !! i) as [m|] eqn:Hm; cbn in *; [|by rewrite lookup_empty in Hsaved].
  rewrite (insert_id m "saved_grad" g Hsaved). by apply insert_id.
Qed.

Lemma fold_save_grad_noop (ps : list (Param A)) (l : list nat) :
  forall st,
    (forall i p g, i ∈ l -> ps !! i = Some p -> grad p = Some g ->
       param_state st i !! "saved_grad" = Some g) ->
    fold_left (Client.TorchClient.save_grad_param ps) l st = st.
Proof.
  induction l as [|i l IH]; intros st Hsaved; [reflexivity|].
  cbn [fold_left]. rewrite save_grad_param_noop.
  - apply IH. intros j p g Hj. apply Hsaved. by right.
  - intros p g. apply Hsaved. by left.
Qed.

(** X11.  The plain [_save_grad] is idempotent: saving the gradients a
    second time, with no backward pass in between, changes nothing. *)
Theorem save_grad_idempotent (c : TorchClient A) :
  Client.TorchClient._save_grad (Client.TorchClient._save_grad c)
  = Client.TorchClient._save_grad c.
Proof.
  set (st1 := fold_left (Client.TorchClient.save_grad_param (parameters c))
                (optimizer_params c) (state c)).
  change (with_state c
            (fold_left (Client.TorchClient.save_grad_param (parameters c))
                       (optimizer_params c) st1)
          = with_state c st1).
  f_equal.
  apply fold_save_grad_noop. intros i p g Hi Hp Hg.
  by apply (fold_save_grad_plain (parameters c) (optimizer_params c) (state c) i p g).
Qed.

(** ** What the momentum [_save_grad] leaves alone *)

Lemma map_insert_same {B C} (f : B -> C) (l : list B) (i : nat) (x y : B) :
  l !! i = Some x -> f y = f x -> map f (<[i := y]> l) = map f l.
Proof.
  revert i. induction l as [|z l IH]; intros [|i] Hi Hf; cbn in *; try done.
  - injection Hi as ->. by rewrite Hf.
  - f_equal. by apply IH.
Qed.

Lemma momentum_save_param_frame (m : A) ps st (j : nat) :
  let r := Client.ClientWithMomentum.save_grad_param m (ps, st) j in
  map data r.1 = map data ps /\ map requires_grad r.1 = map requires_grad ps.
Proof.
  unfold Client.ClientWithMomentum.save_grad_param. cbv zeta.
  destruct (ps !! j) as [p|] eqn:Hp; [|done].
  destruct (grad p) as [g|]; [|done].
  destruct (param_state st j !! "momentum_buffer"); cbn [fst]; [|done].
  split; by apply (map_insert_same _ ps j p).
Qed.

Lemma momentum_fold_frame (m : A) (l : list nat) : forall ps st,
  let r := fold_left (Client.ClientWithMomentum.save_grad_param m) l (ps, st) in
  map data r.1 = map data ps /\ map requires_grad r.1 = map requires_grad ps.
Proof.
  induction l as [|j l IH]; intros ps st; [done|].
  cbn [fold_left].
  pose proof (momentum_save_param_frame m ps st j) as [Hd Hr]. cbv zeta in Hd, Hr.
  destruct (Client.ClientWithMomentum.save_grad_param m (ps, st) j) as [ps1 st1].
  destruct (IH ps1 st1) as [Hd' Hr']. cbn [fst] in *. split; congruence.
Qed.

Lemma momentum_fold_no_gradient (m : A) (l : list nat) : forall ps st (i : nat) p,
  ps !! i = Some p -> grad p = None ->
  let r := fold_left (Client.ClientWithMomentum.save_grad_param m) l (ps, st) in
  r.1 !! i = Some p /\ r.2 !! i = st !! i.
Proof.
  induction l as [|j l IH]; intros ps st i p Hp Hg; [done|].
  cbn [fold_left].
  destruct (Client.ClientWithMomentum.save_grad_param m (ps, st) j) as [ps1 st1] eqn:E.
  assert (Hstep : ps1 !! i = Some p /\ st1 !! i = st !! i).
  { destruct (decide (i = j)) as [->|Hne].
    - unfold Client.ClientWithMomentum.save_grad_param in E.
      rewrite Hp, Hg in E. by injection E as <- <-.
    - pose proof (save_grad_param_other m ps st i j Hne) as Ho.
      rewrite E in Ho. cbn in Ho. destruct Ho as [-> ->]. done. }
  destruct Hstep as [Hp1 Hs1].
  destruct (IH ps1 st1 i p Hp1 Hg) as [H1 H2]. cbv zeta. by rewrite H1, H2.
Qed.

(** X12.  The momentum [_save_grad] only ever writes the gradient and
    the buffer of parameters that the optimizer holds and that have a
    gradient: parameter values and [requires_grad] flags, the optimizer's
    groups, the saved update and the momentum factor are unchanged,
    parameters outside the optimizer keep gradient and state, and so do
    parameters whose [grad] is [None] (no buffer is created for them). *)
Theorem momentum_save_grad_frame (c : MomentumClient A) :
  let c' := Client.ClientWithMomentum._save_grad c in
  map data (parameters (base c')) = map data (parameters (base c))
  /\ map requires_grad (parameters (base c')) = map requires_grad (parameters (base c))
  /\ param_groups (base c') = param_groups (base c)
  /\ saved_update (base c') = saved_update (base c)
  /\ momentum c' = momentum c
  /\ (forall i, i ∉ optimizer_params (base c) ->
        parameters (base c') !! i = parameters (base c) !! i
        /\ state (base c') !! i = state (base c) !! i)
  /\ (forall i p, parameters (base c) !! i = Some p -> grad p = None ->
        parameters (base c') !! i = Some p
        /\ state (base c') !! i = state (base c) !! i).
Proof.
  cbv zeta. unfold Client.ClientWithMomentum._save_grad.
  cbn [base momentum parameters param_groups saved_update state
       with_parameters with_state].
  pose proof (momentum_fold_frame (momentum c) (optimizer_params (base c))
                (parameters (base c)) (state (base c))) as [Hd Hr].
  cbv zeta in Hd, Hr. repeat split; try done.
  - by apply (fold_save_grad_other (momentum c)).
  - by apply (fold_save_grad_other (momentum c)).
  - by apply (momentum_fold_no_gradient (momentum c) _ _ _ i p).
  - by apply (momentum_fold_no_gradient (momentum c) _ _ _ i p).
Qed.

End ClientMore.

(** ** The momentum blend over the rationals *)

Section BlendOverQ.
Import Torch.

Lemma blend_zero_momentum (m : Q) : forall (buf g : tensor Q),
  m == 0 -> length buf = length g ->
  tensor_eq (zip_with Qplus (map (fun x => x * m) buf)
                            (map (fun x => x * (1 - m)) g)) g.
Proof.
  unfold tensor_eq.
  induction buf as [|x buf IH]; intros [|y g] Hm Hlen; try discriminate; cbn.
  - constructor.
  - constructor; [rewrite Hm; ring|]. apply IH; [exact Hm|]. cbn in Hlen. lia.
Qed.

(** X13.  With the momentum factor [0] the momentum client keeps no
    memory: after every save the buffer of a parameter equals the
    gradient just computed for it. *)
Theorem zero_momentum_tracks_gradient
    (c : MomentumClient Q) (i : nat) (p : Param Q) (g buf : tensor Q) :
  NoDup (optimizer_params (base c)) ->
  i ∈ optimizer_params (base c) ->
  parameters (base c) !! i = Some p ->
  grad p = Some g ->
  momentum_buffer c i = Some buf ->
  length buf = length g ->
  momentum c == 0 ->
  exists b, momentum_buffer (Client.ClientWithMomentum._save_grad c) i = Some b
            /\ tensor_eq b g.
Proof.
  intros Hnd Hin Hp Hg Hbuf Hlen Hm.
  destruct (save_grad_later c i p g buf Hnd Hin Hp Hg Hbuf) as [_ H2].
  eexists. split; [exact H2|]. by apply blend_zero_momentum.
Qed.

Lemma blend_in_range (m lo hi : Q) : forall (buf g : tensor Q),
  0 <= m <= 1 ->
  Forall (fun x => lo <= x <= hi) buf ->
  Forall (fun x => lo <= x <= hi) g ->
  Forall (fun x => lo <= x <= hi)
    (zip_with Qplus (map (fun x => x * m) buf) (map (fun x => x * (1 - m)) g)).
Proof.
  intros buf g Hm Hbuf. revert g.
  induction Hbuf as [|x buf Hx _ IH]; intros g Hg; [constructor|].
  destruct Hg as [|y g Hy Hg]; cbn; [constructor|].
  constructor; [|by apply IH]. split; nra.
Qed.

(** X14.  For a momentum factor in [[0, 1]] the blend is a convex
    combination: when the entries of the buffer and of the new gradient
    lie between two bounds, so do the entries of the buffer after the
    save. *)
Theorem momentum_buffer_stays_in_range
    (c : MomentumClient Q) (i : nat) (p : Param Q) (g buf : tensor Q) (lo hi : Q) :
  NoDup (optimizer_params (base c)) ->
  i ∈ optimizer_params (base c) ->
  parameters (base c) !! i = Some p ->
  grad p = Some g ->
  momentum_buffer c i = Some buf ->
  0 <= momentum c <= 1 ->
  Forall (fun x => lo <= x <= hi) buf ->
  Forall (fun x => lo <= x <= hi) g ->
  exists b, momentum_buffer (Client.ClientWithMomentum._save_grad c) i = Some b
            /\ Forall (fun x => lo <= x <= hi) b.
Proof.
  intros Hnd Hin Hp Hg Hbuf Hm Hb Hgr.
  destruct (save_grad_later c i p g buf Hnd Hin Hp Hg Hbuf) as [_ H2].
  eexists. split; [exact H2|]. by apply blend_in_range.
Qed.

End BlendOverQ.

(** ** [get_update] on its own result *)

Section UpdateMore.
Import Torch.

Lemma float_nan_to_num_fixed (x : spec_float) :
  float_nan_to_num (float_nan_to_num x) = float_nan_to_num x.
Proof. destruct x as [s|s| |s m e]; try destruct s; reflexivity. Qed.

(** X15.  What [get_update] returns is a fixed point of the
    sanitization: saved again as the update of any client, it is
    returned unchanged. *)
Theorem get_update_fixed_point
    (c c' : TorchClient spec_float) (r : tensor spec_float) :
  Client.TorchClient.get_update c = Ok r ->
  Client.TorchClient.get_update (Client.TorchClient._save_update r c') = Ok r.
Proof.
  unfold Client.TorchClient.get_update, Client.TorchClient._get_saved_update.
  destruct (saved_update c) as [u|]; [|discriminate]. intros [= <-].
  cbn. f_equal. rewrite map_map. apply map_ext. intros x.
  apply float_nan_to_num_fixed.
Qed.

End UpdateMore.

(** ** The parameter snapshot and the update *)

Lemma mapM_res_ext_in {B C} (f g : B -> res C) (l : list B) :
  (forall x, In x l -> f x = g x) -> mapM f l = mapM g l.
Proof.
  induction l as [|x l IH]; intros Hext; [reflexivity|].
  cbn. rewrite (Hext x (or_introl eq_refl)).
  assert (Hl : mapM f l = mapM g l) by (apply IH; intros y Hy; apply Hext; by right).
  cbn in Hl. by rewrite Hl.
Qed.

Section SnapshotMore.
Import Torch.
Context {A : Type} `{Scalar A}.

Local Abbreviation save_para := (Client.TorchClient.save_para_param).
Local Abbreviation layer := (Client.TorchClient.para_layer).

Lemma omap_all_none {B} (l : list nat) :
  omap id (map (fun _ : nat => @None B) l) = [].
Proof. induction l as [|x l IH]; [reflexivity|exact IH]. Qed.

(** X16.  As long as no parameter of the optimizer has a gradient (no
    backward pass has run yet), [_get_para] has nothing to concatenate:
    it raises [RuntimeError], and so does the computation of the update
    at the end of [local_training]. *)
Theorem get_para_without_gradients (c : TorchClient A) (current : bool) :
  (forall i p, i ∈ optimizer_params c -> parameters c !! i = Some p -> grad p = None) ->
  Client.TorchClient._get_para current c = Raise RuntimeError
  /\ Client.TorchClient.finalize_update c = Raise RuntimeError.
Proof.
  intros Hnone.
  assert (Hall : forall b, Client.TorchClient._get_para b c = Raise RuntimeError).
  { intros b. unfold Client.TorchClient._get_para.
    rewrite (mapM_res_Forall2 _ _ (map (fun _ => None) (optimizer_params c))).
    - cbn. by rewrite omap_all_none.
    - assert (HF : forall l : list nat,
                (forall i p, In i l -> parameters c !! i = Some p -> grad p = None) ->
                Forall2 (fun x y => layer b c x = Ok y) l (map (fun _ => None) l)).
      { induction l as [|i l IH]; intros Hl; cbn; constructor.
        - unfold Client.TorchClient.para_layer.
          destruct (parameters c !! i) as [p|] eqn:Hp; [|reflexivity].
          by rewrite (Hl i p (or_introl eq_refl) Hp).
        - apply IH. intros j p Hj. apply Hl. by right. }
      apply HF. intros i p Hi. apply Hnone. by apply list_elem_of_In. }
  split; [apply Hall|].
  unfold Client.TorchClient.finalize_update, Client.TorchClient.para_difference.
  by rewrite (Hall true).
Qed.

Lemma fold_save_para_in (ps : list (Param A)) (l : list nat) :
  forall st (i : nat) p,
    i ∈ l -> ps !! i = Some p -> requires_grad p = true ->
    param_state (fold_left (save_para ps) l st) i !! "saved_para" = Some (data p).
Proof.
  induction l as [|j l IH] using rev_ind; intros st i p Hin Hp Hreq.
  - by apply elem_of_nil in Hin.
  - rewrite fold_left_app. cbn [fold_left].
    set (st1 := fold_left (save_para ps) l st).
    destruct (decide (i = j)) as [<-|Hne].
    + unfold Client.TorchClient.save_para_param. rewrite Hp, Hreq.
      unfold param_state at 1. rewrite lookup_insert_eq. cbn.
      apply lookup_insert_eq.
    + apply elem_of_app in Hin as [Hin|Hin%list_elem_of_singleton]; [|done].
      pose proof (IH st i p Hin Hp Hreq) as Hst1. fold st1 in Hst1.
      unfold Client.TorchClient.save_para_param.
      destruct (ps !! j) as [q|]; [|exact Hst1].
      destruct (requires_grad q); [|exact Hst1].
      unfold param_state at 1. rewrite lookup_insert_ne by done. exact Hst1.
Qed.

Lemma fold_save_para_frozen (ps : list (Param A)) (l : list nat) :
  forall st (i : nat) p,
    ps !! i = Some p -> requires_grad p = false ->
    fold_left (save_para ps) l st !! i = st !! i.
Proof.
  induction l as [|j l IH] using rev_ind; intros st i p Hp Hreq; [reflexivity|].
  rewrite fold_left_app. cbn [fold_left].
  rewrite <- (IH st i p Hp Hreq).
  unfold Client.TorchClient.save_para_param.
  destruct (ps !! j) as [q|] eqn:Hq; [|reflexivity].
  destruct (requires_grad q) eqn:Hrq; [|reflexivity].
  apply lookup_insert_ne. intros ->. congruence.
Qed.

Lemma current_layers (c : TorchClient A) (l : list nat) :
  exists layers,
    mapM (layer true c) l = Ok layers
    /\ ((exists i p, i ∈ l /\ parameters c !! i = Some p /\ is_Some (grad p)) ->
        omap id layers <> []).
Proof.
  induction l as [|j l (layers & Hl & Hne)].
  - exists []. split; [reflexivity|]. intros (i & p & Hi & _). by apply elem_of_nil in Hi.
  - cbn. cbn in Hl. rewrite Hl.
    unfold Client.TorchClient.para_layer at 1.
    destruct (parameters c !! j) as [q|] eqn:Hq.
    + destruct (grad q) as [g|] eqn:Hg; cbn.
      * eexists. split; [reflexivity|]. intros _. discriminate.
      * eexists. split; [reflexivity|]. cbn.
        intros (i & p & Hi & Hp & Hgp). apply Hne.
        apply elem_of_cons in Hi as [->|Hi]; [|by eauto].
        rewrite Hq in Hp. injection Hp as <-. rewrite Hg in Hgp. by destruct Hgp.
    + cbn. eexists. split; [reflexivity|]. cbn.
      intros (i & p & Hi & Hp & Hgp). apply Hne.
      apply elem_of_cons in Hi as [->|Hi]; [congruence|by eauto].
Qed.

Lemma saved_layer_or_key_error (c : TorchClient A) (i : nat) :
  (exists y, layer false c i = Ok y) \/ layer false c i = Raise KeyError.
Proof.
  unfold Client.TorchClient.para_layer.
  destruct (parameters c !! i) as [p|]; [|eauto].
  destruct (grad p); [|eauto].
  destruct (param_state (state c) i !! "saved_para"); eauto.
Qed.

(** X17.  [_save_para] skips parameters that do not require a gradient,
    [_get_para] skips parameters whose [grad] is [None].  A parameter
    that has a gradient but does not require one, and has no earlier
    snapshot, is therefore read without having been saved: the update
    computation after [_save_para] raises [KeyError]. *)
Theorem snapshot_skip_rules_differ (c : TorchClient A) (i : nat) (p : Param A) :
  i ∈ optimizer_params c ->
  parameters c !! i = Some p ->
  is_Some (grad p) ->
  requires_grad p = false ->
  param_state (state c) i !! "saved_para" = None ->
  Client.TorchClient.finalize_update (Client.TorchClient._save_para c) = Raise KeyError.
Proof.
  intros Hin Hp Hg Hreq Hnone.
  set (c1 := Client.TorchClient._save_para c).
  assert (Hst : state c1 !! i = state c !! i).
  { apply (fold_save_para_frozen (parameters c) (optimizer_params c) (state c) i p Hp Hreq). }
  destruct (current_layers c1 (optimizer_params c1)) as (layers & Hcur & Hne).
  assert (Hcat : exists cur, Client.TorchClient._get_para true c1 = Ok cur).
  { unfold Client.TorchClient._get_para. rewrite Hcur. cbn. unfold cat.
    destruct (omap id layers) eqn:E; [|eauto].
    exfalso. apply Hne; [|reflexivity]. exists i, p. done. }
  destruct Hcat as [cur Hget].
  assert (Hold : Client.TorchClient._get_para false c1 = Raise KeyError).
  { unfold Client.TorchClient._get_para.
    rewrite (mapM_res_raise _ (optimizer_params c1) KeyError); [reflexivity| |].
    - intros x _. apply saved_layer_or_key_error.
    - exists i. split; [by apply list_elem_of_In|].
      unfold Client.TorchClient.para_layer.
      change (parameters c1) with (parameters c). rewrite Hp.
      destruct Hg as [g ->]. unfold param_state. rewrite Hst.
      unfold param_state in Hnone. by rewrite Hnone. }
  unfold Client.TorchClient.finalize_update, Client.TorchClient.para_difference.
  rewrite Hold, Hget. reflexivity.
Qed.

End SnapshotMore.

Lemma zip_minus_self (cur : list Q) :
  Forall (fun x => x == 0) (zip_with Qminus cur cur).
Proof. induction cur as [|x cur IH]; cbn; constructor; [ring|exact IH]. Qed.

(** X18.  When every parameter that has a gradient also requires one
    and at least one parameter has a gradient, computing the update right
    after the snapshot, with no training step in between, succeeds and
    stores the zero vector. *)
Theorem untrained_update_is_zero (c : Torch.TorchClient Q) :
  (forall i p, i ∈ Torch.optimizer_params c -> Torch.parameters c !! i = Some p ->
     is_Some (Torch.grad p) -> Torch.requires_grad p = true) ->
  (exists i p, i ∈ Torch.optimizer_params c /\ Torch.parameters c !! i = Some p
               /\ is_Some (Torch.grad p)) ->
  exists c' z,
    Client.TorchClient.finalize_update (Client.TorchClient._save_para c) = Ok c'
    /\ Torch.saved_update c' = Some z
    /\ Forall (fun x => x == 0) z
    /\ Torch.parameters c' = Torch.parameters c.
Proof.
  intros Hreq Hsome.
  set (c1 := Client.TorchClient._save_para c).
  destruct (current_layers c1 (Torch.optimizer_params c1)) as (layers & Hcur & Hne).
  assert (Hsame : mapM (Client.TorchClient.para_layer false c1) (Torch.optimizer_params c1)
                  = mapM (Client.TorchClient.para_layer true c1) (Torch.optimizer_params c1)).
  { apply mapM_res_ext_in. intros i Hi. apply list_elem_of_In in Hi.
    unfold Client.TorchClient.para_layer.
    change (Torch.parameters c1) with (Torch.parameters c).
    destruct (Torch.parameters c !! i) as [p|] eqn:Hp; [|reflexivity].
    destruct (Torch.grad p) as [g|] eqn:Hg; [|reflexivity].
    assert (Hr : Torch.requires_grad p = true) by (apply (Hreq i p Hi Hp); by rewrite Hg).
    pose proof (fold_save_para_in (Torch.parameters c) (Torch.optimizer_params c)
                  (Torch.state c) i p Hi Hp Hr) as Hs.
    change (fold_left _ _ _) with (Torch.state c1) in Hs. by rewrite Hs. }
  assert (Hcat : exists cur, Client.TorchClient._get_para true c1 = Ok cur
                             /\ Client.TorchClient._get_para false c1 = Ok cur).
  { unfold Client.TorchClient._get_para. rewrite Hsame, Hcur. cbn. unfold Torch.cat.
    destruct (omap id layers) eqn:E; [|eauto].
    exfalso. apply Hne; [exact Hsome|reflexivity]. }
  destruct Hcat as (cur & Hget & Hold).
  unfold Client.TorchClient.finalize_update, Client.TorchClient.para_difference.
  rewrite Hold, Hget. cbn. rewrite Nat.eqb_refl. cbn.
  eexists _, _. split; [reflexivity|]. cbn. split; [reflexivity|].
  split; [apply zip_minus_self|reflexivity].
Qed.

(** ** Local training: snapshot, train, difference *)

Section LocalTraining.
Import Torch.
Context {A : Type} `{Scalar A}.
Variable optimizer_step : TorchClient A -> TorchClient A.

(** What a torch optimizer leaves alone: the client's own [state]
    dictionary, the parameter groups and the gradients. *)
Hypothesis step_frame : forall x,
  state (optimizer_step x) = state x
  /\ param_groups (optimizer_step x) = param_groups x
  /\ map grad (parameters (optimizer_step x)) = map grad (parameters x).

Local Abbreviation step := (Training.training_step optimizer_step).

Lemma training_step_frame (x : TorchClient A) gs :
  state (step x gs) = state x
  /\ param_groups (step x gs) = param_groups x
  /\ length (parameters (step x gs)) = length (parameters x)
  /\ map grad (parameters (step x gs))
     = imap (fun i _ => mjoin (gs !! i)) (parameters x).
Proof.
  unfold Training.training_step, Training.apply_gradient.
  destruct (step_frame (backward gs x)) as (Hs & Hg & Hgr).
  rewrite Hs, Hg. repeat split.
  - rewrite <- (length_map grad), Hgr, length_map. cbn. apply length_imap.
  - rewrite Hgr. cbn. generalize (parameters x). intros ps.
    change (map grad (imap (fun i p => with_grad p (mjoin (gs !! i))) ps))
      with (grad <$> imap (fun i p => with_grad p (mjoin (gs !! i))) ps).
    rewrite fmap_imap. apply imap_ext. reflexivity.
Qed.

Lemma fold_training_frame (batches : list (list (option (tensor A)))) :
  forall x,
    let y := fold_left step batches x in
    state y = state x /\ param_groups y = param_groups x
    /\ length (parameters y) = length (parameters x).
Proof.
  induction batches as [|gs batches IH]; intros x; [done|].
  cbn [fold_left]. destruct (IH (step x gs)) as (H1 & H2 & H3).
  destruct (training_step_frame x gs) as (F1 & F2 & F3 & _).
  cbv zeta. rewrite H1, H2, H3. done.
Qed.

Lemma omap_some_data (ps : list (Param A)) :
  omap id (map (fun p => Some (data p)) ps) = map data ps.
Proof. induction ps as [|p ps IH]; cbn; [reflexivity|]. by rewrite IH. Qed.

Lemma layers_over_seq (f : nat -> res (option (tensor A))) (ps : list (Param A))
    (g : Param A -> option (tensor A)) :
  (forall i p, ps !! i = Some p -> f i = Ok (g p)) ->
  mapM f (seq 0 (length ps)) = Ok (map g ps).
Proof.
  intros Hf. apply mapM_res_Forall2.
  apply Forall2_same_length_lookup_2.
  - by rewrite length_seq, length_map.
  - intros i x y Hx Hy.
    apply lookup_seq in Hx as [-> Hlt]. cbn in *.
    rewrite lookup_map in Hy.
    destruct (ps !! i) as [p|] eqn:Hp; [|discriminate].
    injection Hy as <-. by apply Hf.
Qed.

(** X19.  [local_training] stores, as the client's update, the flattened
    parameters after the training loop minus the flattened parameters at
    the time of the call, whatever the optimizer, provided the optimizer
    leaves the client's state dictionary, its parameter groups and the
    gradients alone, every parameter requires a gradient, the last batch
    gives every parameter one, and the parameters have as many entries
    after the loop as before. *)
Theorem local_training_stores_difference (c : TorchClient A)
    (earlier : list (list (option (tensor A)))) (last : list (option (tensor A))) :
  single_group c ->
  parameters c <> [] ->
  Forall (fun p => requires_grad p = true) (parameters c) ->
  length last = length (parameters c) ->
  Forall is_Some last ->
  let trained := fold_left step (earlier ++ [last]) (Client.TorchClient._save_para c) in
  let cur := concat (map data (parameters trained)) in
  let old := concat (map data (parameters c)) in
  length cur = length old ->
  Training.local_training optimizer_step (earlier ++ [last]) c
  = Ok (Client.TorchClient._save_update (zip_with ssub cur old) trained).
Proof.
  intros Hgroup Hne Hreq Hlen Hsome trained cur old Hsize.
  assert (Hdef : fold_left step (earlier ++ [last]) (Client.TorchClient._save_para c)
                 = trained) by reflexivity.
  clearbody trained.
  set (c1 := Client.TorchClient._save_para c) in *.
  set (x := fold_left step earlier c1).
  assert (Htr : trained = step x last).
  { rewrite <- Hdef. by rewrite fold_left_app. }
  destruct (fold_training_frame earlier c1) as (Hxs & Hxg & Hxl). fold x in Hxs, Hxg, Hxl.
  destruct (training_step_frame x last) as (Hts & Htg & Htl & Htgr).
  rewrite <- Htr in Hts, Htg, Htl, Htgr.
  change (parameters c1) with (parameters c) in Hxl.
  change (param_groups c1) with (param_groups c) in Hxg.
  assert (Hparams : optimizer_params trained = seq 0 (length (parameters trained))).
  { unfold optimizer_params. rewrite Htg, Hxg, Hgroup, Htl, Hxl. cbn. apply app_nil_r. }
  assert (Hgrad : forall i p, parameters trained !! i = Some p -> is_Some (grad p)).
  { intros i p Hp.
    assert (Hi : map grad (parameters trained) !! i = Some (grad p))
      by (rewrite lookup_map, Hp; reflexivity).
    rewrite Htgr in Hi. apply list_lookup_imap_Some in Hi as (q & Hq & Hi).
    rewrite Hi.
    assert (Hlt : (i < length last)%nat).
    { rewrite Hlen, <- Hxl. eapply lookup_lt_Some, Hq. }
    apply lookup_lt_is_Some in Hlt as [og Hog]. rewrite Hog. cbn.
    eapply Forall_lookup_1 in Hsome; [|exact Hog]. exact Hsome. }
  assert (Hcur : Client.TorchClient._get_para true trained = Ok cur).
  { unfold Client.TorchClient._get_para. rewrite Hparams.
    rewrite (layers_over_seq _ _ (fun p => Some (data p))).
    - cbn. rewrite omap_some_data. unfold cat.
      destruct (parameters trained) as [|p ps] eqn:E; [|reflexivity].
      exfalso. apply Hne. apply nil_length_inv. rewrite <- Hxl, <- Htl. reflexivity.
    - intros i p Hp. unfold Client.TorchClient.para_layer. rewrite Hp.
      by destruct (Hgrad i p Hp) as [g ->]. }
  assert (Hold : Client.TorchClient._get_para false trained = Ok old).
  { unfold Client.TorchClient._get_para. rewrite Hparams, Htl, Hxl.
    rewrite (layers_over_seq _ _ (fun p => Some (data p))).
    - cbn. rewrite omap_some_data. unfold cat.
      destruct (parameters c) as [|p ps] eqn:E; [done|reflexivity].
    - intros i p0 Hp0. unfold Client.TorchClient.para_layer.
      assert (Hlt : (i < length (parameters trained))%nat).
      { rewrite Htl, Hxl. eapply lookup_lt_Some, Hp0. }
      apply lookup_lt_is_Some in Hlt as [p Hp]. rewrite Hp.
      destruct (Hgrad i p Hp) as [g ->].
      rewrite Hts, Hxs.
      assert (Hin : i ∈ optimizer_params c).
      { unfold optimizer_params. rewrite Hgroup. cbn. rewrite app_nil_r.
        apply elem_of_seq. split; [lia|]. cbn. eapply lookup_lt_Some, Hp0. }
      assert (Hr : requires_grad p0 = true).
      { eapply Forall_lookup_1 in Hreq; [|exact Hp0]. exact Hreq. }
      pose proof (fold_save_para_in (parameters c) (optimizer_params c)
                    (state c) i p0 Hin Hp0 Hr) as Hs.
      change (fold_left _ _ _) with (state c1) in Hs. by rewrite Hs. }
  unfold Training.local_training. cbv zeta. fold c1. rewrite Hdef.
  unfold Client.TorchClient.finalize_update, Client.TorchClient.para_difference.
  rewrite Hold, Hcur. cbn.
  by rewrite (proj2 (Nat.eqb_eq _ _) Hsize).
Qed.

End LocalTraining.

(** The plain [SGD] step only writes the values of the parameters. *)
Lemma sgd_step_frame {A : Type} `{Torch.Scalar A} (lr : A) (x : Torch.TorchClient A) :
  Torch.state (Training.sgd_step lr x) = Torch.state x
  /\ Torch.param_groups (Training.sgd_step lr x) = Torch.param_groups x
  /\ map Torch.grad (Torch.parameters (Training.sgd_step lr x))
     = map Torch.grad (Torch.parameters x).
Proof.
  split; [reflexivity|]. split; [reflexivity|].
  unfold Training.sgd_step. cbn [Torch.parameters Torch.with_parameters].
  generalize (Torch.parameters x). induction (Torch.optimizer_params x) as [|i l IH];
    intros ps; [reflexivity|].
  cbn [fold_left]. rewrite IH. unfold Training.sgd_param.
  destruct (ps !! i) as [p|] eqn:Hp; [|reflexivity].
  destruct (Torch.grad p) as [g|] eqn:Hg; [|reflexivity].
  by apply (map_insert_same Torch.grad ps i p).
Qed.

(** * The metric registry of the actor *)

Section MetricFacts.
Context {M : Type}.

Lemma add_metric_ok (name : string) (callback : M) (metrics metrics' : gmap string M) :
  Metrics.add_metric name callback metrics = Ok metrics' <->
  metrics !! name = None /\ name <> "loss"%string /\ name <> "length"%string
  /\ metrics' = <[name := callback]> metrics.
Proof.
  unfold Metrics.add_metric.
  destruct (bool_decide (is_Some (metrics !! name))) eqn:E1; cbn.
  - apply bool_decide_eq_true in E1. split; [discriminate|].
    intros (Hn & _). rewrite Hn in E1. by destruct E1.
  - apply bool_decide_eq_false in E1.
    assert (Hnone : metrics !! name = None).
    { destruct (metrics !! name); [|reflexivity]. exfalso. by apply E1. }
    destruct (bool_decide (name ∈ ["loss"%string; "length"%string])) eqn:E2.
    + apply bool_decide_eq_true in E2. split; [discriminate|].
      intros (_ & H1 & H2 & _).
      apply elem_of_cons in E2 as [->|E2]; [done|].
      apply elem_of_cons in E2 as [->|E2]; [done|].
      by apply elem_of_nil in E2.
    + apply bool_decide_eq_false in E2. split.
      * intros [= <-]. repeat split; [exact Hnone| | ].
        -- intros ->. apply E2. left.
        -- intros ->. apply E2. right. left.
      * intros (_ & _ & _ & ->). reflexivity.
Qed.

(** X20.  [add_metrics] never overwrites or removes a registered metric
    and never registers the reserved names ["loss"] and ["length"],
    whether the call returns or raises half way. *)
Theorem add_metrics_keeps_registry (new : list (string * M)) (metrics : gmap string M) :
  metrics ⊆ fst (Metrics.add_metrics new metrics)
  /\ fst (Metrics.add_metrics new metrics) !! "loss"%string = metrics !! "loss"%string
  /\ fst (Metrics.add_metrics new metrics) !! "length"%string = metrics !! "length"%string.
Proof.
  revert metrics. induction new as [|[name cb] new IH]; intros metrics; [done|].
  cbn [Metrics.add_metrics].
  destruct (Metrics.add_metric name cb metrics) as [m1|e] eqn:E; [|done].
  apply add_metric_ok in E as (Hnone & Hl1 & Hl2 & ->).
  destruct (IH (<[name := cb]> metrics)) as (Hsub & Hloss & Hlen).
  split; [|split].
  - etrans; [|exact Hsub]. by apply insert_subseteq.
  - rewrite Hloss. by apply lookup_insert_ne.
  - rewrite Hlen. by apply lookup_insert_ne.
Qed.

Lemma add_metrics_fresh (new : list (string * M)) : forall metrics,
  snd (Metrics.add_metrics new metrics) = None ->
  forall k, k ∉ new.*1 ->
    fst (Metrics.add_metrics new metrics) !! k = metrics !! k.
Proof.
  induction new as [|[name cb] new IH]; intros metrics Hok k Hk; [done|].
  cbn [Metrics.add_metrics] in *.
  destruct (Metrics.add_metric name cb metrics) as [m1|e] eqn:E; [|done].
  apply add_metric_ok in E as (_ & _ & _ & ->).
  cbn in Hk. apply not_elem_of_cons in Hk as [Hne Hk].
  rewrite (IH _ Hok k Hk). by apply lookup_insert_ne.
Qed.

(** X21.  For a dictionary of new metrics (distinct names), [add_metrics]
    returns without raising exactly when none of the names is registered
    already or reserved; it then has registered every new metric under
    its name. *)
Theorem add_metrics_succeeds_iff_fresh (new : list (string * M)) (metrics : gmap string M) :
  NoDup new.*1 ->
  (snd (Metrics.add_metrics new metrics) = None <->
   Forall (fun name => metrics !! name = None
                       /\ name <> "loss"%string /\ name <> "length"%string) new.*1)
  /\ (snd (Metrics.add_metrics new metrics) = None ->
      forall name callback, (name, callback) ∈ new ->
        fst (Metrics.add_metrics new metrics) !! name = Some callback).
Proof.
  revert metrics. induction new as [|[name cb] new IH]; intros metrics Hnd.
  - split; [split; [constructor|reflexivity]|].
    intros _ n c Hin. by apply elem_of_nil in Hin.
  - cbn in Hnd. apply NoDup_cons in Hnd as [Hnotin Hnd].
    cbn [Metrics.add_metrics].
    destruct (Metrics.add_metric name cb metrics) as [m1|e] eqn:E.
    + apply add_metric_ok in E as (Hnone & Hl1 & Hl2 & ->).
      destruct (IH (<[name := cb]> metrics) Hnd) as [Hiff Hall].
      split; [split|].
      * intros Hok. cbn. constructor; [done|].
        apply Hiff in Hok. eapply Forall_impl; [exact Hok|].
        intros k (Hk & ? & ?). split; [|done].
        destruct (decide (k = name)) as [->|Hne].
        -- by rewrite lookup_insert_eq in Hk.
        -- by rewrite lookup_insert_ne in Hk.
      * cbn. intros Hall'. apply Forall_cons in Hall' as [_ Hrest].
        apply Hiff. apply Forall_forall. intros k Hk.
        rewrite Forall_forall in Hrest. destruct (Hrest k Hk) as (Hkn & ? & ?).
        split; [|done]. rewrite lookup_insert_ne; [exact Hkn|].
        intros <-. by apply Hnotin.
      * intros Hok n c Hin. apply elem_of_cons in Hin as [[= -> ->]|Hin].
        -- rewrite (add_metrics_fresh new _ Hok name Hnotin).
           apply lookup_insert_eq.
        -- by apply Hall.
    + split; [split; [discriminate|]|discriminate].
      cbn. intros Hall'. apply Forall_cons in Hall' as [(Hnone & Hl1 & Hl2) _].
      assert (Hok : Metrics.add_metric name cb metrics = Ok (<[name := cb]> metrics))
        by (by apply add_metric_ok).
      congruence.
Qed.

End MetricFacts.

(** * Concrete instances of the further properties *)

Lemma eta_optimal_prefix_average_witness :
  exists k, (k < length [3; 20; 0; 4; 22])%nat
    /\ eta_optimal [3; 20; 0; 4; 22] 5
       = (pysum (firstn (k + 1) [3; 20; 0; 4; 22]) + 5) / Qnat (k + 1).
Proof.
  apply (eta_optimal_prefix_average [3; 20; 0; 4; 22] 5); [discriminate|lra].
Defined.


Lemma ascending_distances_weights_sum_to_one_witness :
  pysum (update_alpha [0; 3; 4; 20; 22] 5) == 1.
Proof.
  apply (ascending_distances_weights_sum_to_one [0; 3; 4; 20; 22] 5).
  - repeat (constructor; [|repeat (constructor; try (vm_compute; discriminate))]).
    constructor.
  - discriminate.
  - lra.
Defined.

Lemma initial_objective_mean_distance_witness :
  let st := {| ls_alpha := [1 # 5; 1 # 5; 1 # 5; 1 # 5; 1 # 5];
               ls_median := 0;
               ls_global_obj := 628662109375 # 61035156250 |} in
  ls_alpha st = repeat (1 / Qnat (length Examples.updates_a)) (length Examples.updates_a)
  /\ pysum (ls_alpha st) == 1
  /\ ls_global_obj st
     == pysum (map (OneDim._compute_euclidean_distance (ls_median st)) Examples.updates_a)
        / Qnat (length Examples.updates_a) + (1 # 2).
Proof.
  apply (initial_objective_mean_distance
           OneDim._compute_euclidean_distance OneDim.gm_agg Examples.updates_a).
  - discriminate.
  - vm_compute. reflexivity.
Defined.

Lemma nonpositive_ftol_runs_all_passes_witness :
  fst (OneDim.__call__ {| momentum := None |} Examples.updates_a 3 Examples.eps 0)
  = match OneDim.iterates Examples.updates_a 3 with
    | Ok st => Ok (ls_median st)
    | Raise e => Raise e
    end.
Proof.
  apply (nonpositive_ftol_runs_all_passes
           OneDim.get_update OneDim._compute_euclidean_distance
           OneDim.gm_agg OneDim.zeros_like
           {| momentum := None |} Examples.updates_a Examples.updates_a 3 Examples.eps 0).
  - intros u v. apply Qabs_nonneg.
  - reflexivity.
  - discriminate.
  - lra.
Defined.

Lemma failing_client_leaves_aggregator_witness :
  __call__ Client.TorchClient.get_update
    (fun _ _ : Torch.tensor spec_float => 0)
    (fun _ _ => Raise SolverError) (fun v => v)
    {| momentum := None |}
    ([Examples.mixed_client] ++ Examples.fresh_client :: [Examples.inf_client])
    100 Examples.eps Examples.ftol
  = (Raise TypeError, {| momentum := None |}).
Proof.
  apply (failing_client_leaves_aggregator Client.TorchClient.get_update).
  - constructor; [|constructor]. eexists. reflexivity.
  - reflexivity.
Defined.


Lemma set_get_gradient_round_trip_witness :
  Client.TorchClient.get_gradient (Client.TorchClient._save_grad Examples.trained_client)
  = Ok [1; 2; 3]
  /\ Client.TorchClient.set_gradient [1; 2; 3]
       (Client.TorchClient._save_grad Examples.trained_client)
     = Ok (Client.TorchClient._save_grad Examples.trained_client).
Proof.
  apply (set_get_gradient_round_trip Examples.trained_client).
  - reflexivity.
  - discriminate.
  - repeat constructor; eexists; reflexivity.
Defined.

Lemma set_gradient_sizes_witness :
  let gradient : list Q := [4; 5; 6; 7] in
  ((3 <= length gradient)%nat ->
     exists c',
       Client.TorchClient.set_gradient gradient Examples.trained_client = Ok c'
       /\ concat (omap Torch.grad (Torch.parameters c')) = take 3 gradient
       /\ map Torch.data (Torch.parameters c')
          = map Torch.data (Torch.parameters Examples.trained_client)
       /\ map Torch.requires_grad (Torch.parameters c')
          = map Torch.requires_grad (Torch.parameters Examples.trained_client)
       /\ Torch.param_groups c' = Torch.param_groups Examples.trained_client
       /\ Torch.state c' = Torch.state Examples.trained_client
       /\ Torch.saved_update c' = Torch.saved_update Examples.trained_client)
  /\ ((length gradient < 3)%nat ->
     Client.TorchClient.set_gradient gradient Examples.trained_client
     = Raise RuntimeError).
Proof.
  apply (set_gradient_sizes Examples.trained_client [4; 5; 6; 7]).
  repeat constructor; eexists; reflexivity.
Defined.

Lemma zero_momentum_tracks_gradient_witness :
  exists b,
    Torch.momentum_buffer
      (Client.ClientWithMomentum._save_grad Examples.zero_momentum_client) 0 = Some b
    /\ Torch.tensor_eq b [5].
Proof.
  apply (zero_momentum_tracks_gradient Examples.zero_momentum_client 0%nat
           {| Torch.data := [0]; Torch.grad := Some [5]; Torch.requires_grad := true |}
           [5] [5]).
  - vm_compute. apply NoDup_singleton.
  - vm_compute. left.
  - reflexivity.
  - reflexivity.
  - reflexivity.
  - reflexivity.
  - reflexivity.
Defined.

Lemma momentum_buffer_stays_in_range_witness :
  exists b,
    Torch.momentum_buffer
      (Client.ClientWithMomentum._save_grad Examples.warm_momentum_client) 0 = Some b
    /\ Forall (fun x => 0 <= x <= 1) b.
Proof.
  apply (momentum_buffer_stays_in_range Examples.warm_momentum_client 0%nat
           {| Torch.data := [0]; Torch.grad := Some [1]; Torch.requires_grad := true |}
           [1] [1] 0 1).
  - vm_compute. apply NoDup_singleton.
  - vm_compute. left.
  - reflexivity.
  - reflexivity.
  - reflexivity.
  - vm_compute. split; discriminate.
  - repeat constructor; discriminate.
  - repeat constructor; discriminate.
Defined.

Lemma get_update_fixed_point_witness :
  Client.TorchClient.get_update
    (Client.TorchClient._save_update
       [S754_zero false; S754_finite false 16777215 104; S754_finite true 16777215 104;
        S754_finite false 8388608 (-23); S754_zero true]
       Examples.inf_client)
  = Ok [S754_zero false; S754_finite false 16777215 104; S754_finite true 16777215 104;
        S754_finite false 8388608 (-23); S754_zero true].
Proof.
  apply (get_update_fixed_point Examples.mixed_client Examples.inf_client).
  reflexivity.
Defined.

Lemma get_para_without_gradients_witness :
  Client.TorchClient._get_para true (Torch.base Examples.half_momentum_client)
  = Raise RuntimeError
  /\ Client.TorchClient.finalize_update (Torch.base Examples.half_momentum_client)
     = Raise RuntimeError.
Proof.
  apply (get_para_without_gradients (Torch.base Examples.half_momentum_client) true).
  intros i p Hi Hp.
  apply list_elem_of_singleton in Hi. subst i.
  injection Hp as <-. reflexivity.
Defined.

Lemma snapshot_skip_rules_differ_witness :
  Client.TorchClient.finalize_update
    (Client.TorchClient._save_para Examples.detached_client)
  = Raise KeyError.
Proof.
  apply (snapshot_skip_rules_differ Examples.detached_client 0%nat
           {| Torch.data := [7; 8]; Torch.grad := Some [1; 2];
              Torch.requires_grad := false |}).
  - vm_compute. left.
  - reflexivity.
  - eexists. reflexivity.
  - reflexivity.
  - reflexivity.
Defined.

Lemma untrained_update_is_zero_witness :
  exists c' z,
    Client.TorchClient.finalize_update
      (Client.TorchClient._save_para Examples.trained_client) = Ok c'
    /\ Torch.saved_update c' = Some z
    /\ Forall (fun x => x == 0) z
    /\ Torch.parameters c' = Torch.parameters Examples.trained_client.
Proof.
  apply (untrained_update_is_zero Examples.trained_client).
  - intros i p Hi Hp _.
    destruct i as [|[|i]]; cbn in Hp; [by injection Hp as <-|by injection Hp as <-|].
    discriminate.
  - exists 0%nat. eexists. split; [vm_compute; left|].
    split; [reflexivity|]. eexists. reflexivity.
Defined.

Lemma local_training_stores_difference_witness :
  let trained :=
    fold_left (Training.training_step (Training.sgd_step (1 # 10)))
      ([] ++ [[Some [1; 2]; Some [3]]])
      (Client.TorchClient._save_para Examples.trained_client) in
  let cur := concat (map Torch.data (Torch.parameters trained)) in
  let old := concat (map Torch.data (Torch.parameters Examples.trained_client)) in
  Training.local_training (Training.sgd_step (1 # 10))
    ([] ++ [[Some [1; 2]; Some [3]]]) Examples.trained_client
  = Ok (Client.TorchClient._save_update (zip_with Torch.ssub cur old) trained).
Proof.
  apply (local_training_stores_difference (Training.sgd_step (1 # 10))
           (sgd_step_frame (1 # 10)) Examples.trained_client []
           [Some [1; 2]; Some [3]]).
  - reflexivity.
  - discriminate.
  - repeat constructor.
  - reflexivity.
  - repeat constructor; eexists; reflexivity.
  - reflexivity.
Defined.

Lemma add_metrics_succeeds_iff_fresh_witness :
  (snd (Metrics.add_metrics [("top1"%string, 1%nat); ("top5"%string, 5%nat)] ∅) = None <->
   Forall (fun name => (∅ : gmap string nat) !! name = None
                       /\ name <> "loss"%string /\ name <> "length"%string)
          [("top1"%string, 1%nat); ("top5"%string, 5%nat)].*1)
  /\ (snd (Metrics.add_metrics [("top1"%string, 1%nat); ("top5"%string, 5%nat)] ∅) = None ->
      forall name callback,
        (name, callback) ∈ [("top1"%string, 1%nat); ("top5"%string, 5%nat)] ->
        fst (Metrics.add_metrics [("top1"%string, 1%nat); ("top5"%string, 5%nat)] ∅)
          !! name = Some callback).
Proof.
  apply (add_metrics_succeeds_iff_fresh
           [("top1"%string, 1%nat); ("top5"%string, 5%nat)] ∅).
  cbn. apply NoDup_cons. split.
  - intros Hin. apply list_elem_of_singleton in Hin. discriminate.
  - apply NoDup_singleton.
Defined.
